(** * Shallow embedding of the score parser, timeline queries, MIDI accuracy
    engine and metronome of nada-sousou-piano-companion.

    Sources embedded:
    - [src/src/hooks/useMIDI.ts]      accuracy log, handleMIDIMessage, resetStats
    - [src/src/hooks/useMusicXML.ts]  fetchAndParseMusicXML, getActiveNotesAtTime,
                                      getCurrentMeasureAtTime, getNotesByHand
    - [src/src/hooks/useYouTube.ts]   useMetronome (start, stop, setTempo, the
                                      interval tick, the [enabled] effect);
                                      useYouTube (onStateChange and its
                                      time-update interval, cleanup, seekTo,
                                      toggleMute, setVolume)
    - [src/src/components/StatsPanel.tsx]  colours, timing description, tips
    - [src/unnamed/part_002]          formatTime, the player's arrow-key seeking

    JavaScript numbers are modelled by [jsnum]: a finite value (a rational),
    NaN, or a signed infinity.  The results of [+], [-], [*] and [/] are
    rounded to binary64 as IEEE 754 prescribes (round to nearest, ties to
    even, with subnormals and overflow to infinity), by [fl]; [Math.abs],
    [Math.floor], [Math.round] and [%] are exact on doubles and are modelled
    exactly.  Signed zero is not modelled. *)

From Stdlib Require Import ZArith QArith Qround Qabs List Bool String Ascii Lia.
From Stdlib Require Import DecimalString Lqa Qpower.
From Stdlib Require DecimalPos DecimalZ.
Import ListNotations.
Open Scope Z_scope.

(* ------------------------------------------------------------------ *)
(** ** JavaScript numbers *)

Inductive jsnum : Type :=
| Fin (q : Q)
| NaN
| Inf (neg : bool).

Definition Qlt_b (a b : Q) : bool := negb (Qle_bool b a).

Definition num_of_Z (z : Z) : jsnum := Fin (inject_Z z).

Definition js_neg (a : jsnum) : jsnum :=
  match a with
  | Fin q => Fin (- q)
  | NaN => NaN
  | Inf s => Inf (negb s)
  end.

(** [2 ^ e] for any integer [e]. *)
Definition Qpow2 (e : Z) : Q := Qpower (2 # 1) e.

(** For [q > 0], the [E] with [2 ^ E <= q < 2 ^ (E + 1)]. *)
Definition binade (q : Q) : Z :=
  let e0 := Z.log2 (Qnum q) - Z.log2 (Zpos (Qden q)) in
  if Qle_bool (Qpow2 e0) q then e0 else e0 - 1.

(** Rounding to the nearest integer, ties to even. *)
Definition round_even (m : Q) : Z :=
  let f := Qfloor m in
  let r := (m - inject_Z f)%Q in
  if Qlt_b r (1 # 2) then f
  else if Qlt_b (1 # 2) r then f + 1
  else if Z.even f then f else f + 1.

(** The exponent of the last significand bit of the doubles next to
    [q > 0]: 53-bit significands, and no exponent below -1074
    (subnormals). *)
Definition quantum (q : Q) : Z := Z.max (binade q - 52) (-1074).

(** [q > 0] rounded to that spacing (unbounded exponent range). *)
Definition round64_pos (q : Q) : Q :=
  (inject_Z (round_even (q / Qpow2 (quantum q))) * Qpow2 (quantum q))%Q.

(** The double nearest to the exact result [q] (ties to even); a result
    whose rounded magnitude reaches [2 ^ 1024] overflows to an infinity. *)
Definition fl (q : Q) : jsnum :=
  let q' := Qred q in
  if Qeq_bool q' 0 then Fin 0
  else if Qlt_b 0 q' then
    let r := round64_pos q' in
    if Qle_bool (Qpow2 1024) r then Inf false else Fin (Qred r)
  else
    let r := round64_pos (- q') in
    if Qle_bool (Qpow2 1024) r then Inf true else Fin (Qred (- r)).

Definition js_add (a b : jsnum) : jsnum :=
  match a, b with
  | Fin x, Fin y => fl (x + y)
  | NaN, _ | _, NaN => NaN
  | Inf s, Fin _ | Fin _, Inf s => Inf s
  | Inf s, Inf t => if Bool.eqb s t then Inf s else NaN
  end.

Definition js_sub (a b : jsnum) : jsnum := js_add a (js_neg b).

Definition js_mul (a b : jsnum) : jsnum :=
  match a, b with
  | Fin x, Fin y => fl (x * y)
  | NaN, _ | _, NaN => NaN
  | Inf s, Fin q | Fin q, Inf s =>
      if Qeq_bool q 0 then NaN else Inf (xorb s (Qlt_b q 0))
  | Inf s, Inf t => Inf (xorb s t)
  end.

Definition js_div (a b : jsnum) : jsnum :=
  match a, b with
  | Fin x, Fin y =>
      if Qeq_bool y 0 then (if Qeq_bool x 0 then NaN else Inf (Qlt_b x 0))
      else fl (x / y)
  | NaN, _ | _, NaN => NaN
  | Inf s, Fin q => Inf (xorb s (Qlt_b q 0))
  | Fin _, Inf _ => Fin 0
  | Inf _, Inf _ => NaN
  end.

(** [Math.abs] *)
Definition js_abs (a : jsnum) : jsnum :=
  match a with
  | Fin q => Fin (Qabs q)
  | NaN => NaN
  | Inf _ => Inf false
  end.

(** [Math.round]: round half towards +Infinity. *)
Definition js_round (a : jsnum) : jsnum :=
  match a with
  | Fin q => num_of_Z (Qfloor (q + (1 # 2)))
  | other => other
  end.

(** [a < b] *)
Definition js_lt (a b : jsnum) : bool :=
  match a, b with
  | Fin x, Fin y => Qlt_b x y
  | NaN, _ | _, NaN => false
  | Inf true, Inf false => true
  | Inf true, Fin _ => true
  | Fin _, Inf false => true
  | _, _ => false
  end.

(** [a === b] on numbers *)
Definition js_eq (a b : jsnum) : bool :=
  match a, b with
  | Fin x, Fin y => Qeq_bool x y
  | Inf s, Inf t => Bool.eqb s t
  | _, _ => false
  end.

Definition js_le (a b : jsnum) : bool := js_lt a b || js_eq a b.
Definition js_ge (a b : jsnum) : bool := js_le b a.

(** JavaScript truthiness of a number: [0] and [NaN] are falsy. *)
Definition js_truthy (a : jsnum) : bool :=
  match a with
  | Fin q => negb (Qeq_bool q 0)
  | NaN => false
  | Inf _ => true
  end.

(** Decimal rendering of an integer, as in a template literal. *)
Definition Z_to_string (z : Z) : string :=
  NilZero.string_of_int (Z.to_int z).

(* ------------------------------------------------------------------ *)
(** ** [parseInt(s, 10)]

    Leading white space is skipped, an optional sign is read, then the
    longest prefix of decimal digits; no digit gives NaN ([None]). *)

Definition is_js_space (c : ascii) : bool :=
  match nat_of_ascii c with
  | 9 | 10 | 11 | 12 | 13 | 32 => true
  | _ => false
  end%nat.

Definition digit_val (c : ascii) : option Z :=
  let n := nat_of_ascii c in
  if (48 <=? n)%nat && (n <=? 57)%nat then Some (Z.of_nat n - 48) else None.

Fixpoint skip_space (l : list ascii) : list ascii :=
  match l with
  | c :: r => if is_js_space c then skip_space r else l
  | [] => []
  end.

(** Digits accumulated so far: [None] until the first digit. *)
Fixpoint read_digits (acc : option Z) (l : list ascii) : option Z :=
  match l with
  | c :: r =>
      match digit_val c with
      | Some d => read_digits (Some (10 * match acc with Some a => a | None => 0 end + d)) r
      | None => acc
      end
  | [] => acc
  end.

Definition parseInt_Z (s : string) : option Z :=
  match skip_space (list_ascii_of_string s) with
  | "-"%char :: r => option_map Z.opp (read_digits None r)
  | "+"%char :: r => read_digits None r
  | l => read_digits None l
  end.

(** The number [parseInt] returns: the double nearest to the integer read. *)
Definition num_of_int (o : option Z) : jsnum :=
  match o with Some z => fl (inject_Z z) | None => NaN end.

Definition parseInt (s : string) : jsnum := num_of_int (parseInt_Z s).

Definition int_to_string (o : option Z) : string :=
  match o with Some z => Z_to_string z | None => "NaN" end.

(** JavaScript truthiness of a string: only [""] is falsy. *)
Definition str_truthy (s : string) : bool :=
  match s with EmptyString => false | _ => true end.

(** [x || d] for an optional string attribute or text content. *)
Definition str_or (o : option string) (d : string) : string :=
  match o with Some s => if str_truthy s then s else d | None => d end.

(* ------------------------------------------------------------------ *)
(** ** Score document ([useMusicXML.ts])

    The parsed XML document, as far as the parser's queries see it: every
    field is the result of one [querySelector]/[getAttribute] call of
    [fetchAndParseMusicXML] ([None] when the element or attribute is
    absent, otherwise its text). *)

Record note_el : Type := {
  ne_rest : bool;                    (* noteEl.querySelector('rest') *)
  ne_step : option string;           (* querySelector('step')?.textContent *)
  ne_octave : option string;         (* querySelector('octave')?.textContent *)
  ne_alter : option string;          (* querySelector('alter')?.textContent *)
  ne_duration : option string;       (* querySelector('duration')?.textContent *)
  ne_fingering : option string       (* querySelector('technical > fingering')?.textContent *)
}.

Record measure_el : Type := {
  me_number : option string;         (* getAttribute('number') *)
  me_divisions : option string;      (* querySelector('divisions')?.textContent *)
  me_notes : list note_el            (* querySelectorAll('note') *)
}.

Record score_doc : Type := {
  sd_work_title : option string;     (* querySelector('work-title')?.textContent *)
  sd_composer : option string;       (* querySelector('creator[type="composer"]')?.textContent *)
  sd_tempo : option string;          (* querySelector('sound[tempo]')?.getAttribute('tempo') *)
  sd_measures : list measure_el      (* querySelectorAll('measure'), document order *)
}.

Inductive Hand : Type := left | right | both.

Record Note : Type := {
  id : string;
  pitch : jsnum;
  start : jsnum;
  end_ : jsnum;
  duration : jsnum;
  measure : jsnum;
  hand : Hand;
  finger : option jsnum
}.

Record MeasureTimestamp : Type := {
  mt_measure : jsnum;
  mt_start : jsnum;
  mt_end : jsnum
}.

Record MusicData : Type := {
  notes : list Note;
  measures : list MeasureTimestamp;
  title : string;
  composer : string;
  tempo : jsnum
}.

(** [pitchMap[step]]; a key outside the table is [undefined], and
    [undefined + number] is NaN. *)
Definition pitchMap (step : string) : jsnum :=
  if String.eqb step "C" then num_of_Z 0
  else if String.eqb step "D" then num_of_Z 2
  else if String.eqb step "E" then num_of_Z 4
  else if String.eqb step "F" then num_of_Z 5
  else if String.eqb step "G" then num_of_Z 7
  else if String.eqb step "A" then num_of_Z 9
  else if String.eqb step "B" then num_of_Z 11
  else NaN.

(** [const tempo = tempoElement ? parseInt(tempoElement.getAttribute('tempo') || '74', 10) : 74;] *)
Definition tempo_of (doc : score_doc) : jsnum :=
  match sd_tempo doc with
  | Some a => parseInt (str_or (Some a) "74")
  | None => num_of_Z 74
  end.

(** One iteration of [noteElements.forEach]: [None] when the entry is
    skipped by one of the early [return]s. *)
Definition note_entry (tempo : jsnum) (divisions : jsnum) (measureNumber : option Z)
    (noteIndex : nat) (noteEl : note_el) (currentTime : jsnum) : option Note :=
  if ne_rest noteEl then None else
  match ne_step noteEl, ne_octave noteEl with
  | Some step, Some octave =>
      if negb (str_truthy step) || negb (str_truthy octave) then None else
      let baseNote := js_add (pitchMap step) (js_mul (parseInt octave) (num_of_Z 12)) in
      let alterValue :=
        match ne_alter noteEl with
        | Some alter => if str_truthy alter then parseInt alter else num_of_Z 0
        | None => num_of_Z 0
        end in
      let pitch := js_add baseNote alterValue in
      match ne_duration noteEl with
      | Some dtext =>
          if negb (str_truthy dtext) then None else
          let durationInDivisions := parseInt dtext in
          let durationInQuarters := js_div durationInDivisions divisions in
          let durationInSeconds := js_mul durationInQuarters (js_div (num_of_Z 60) tempo) in
          let finger :=
            match ne_fingering noteEl with
            | Some f => if str_truthy f then Some (parseInt f) else None
            | None => None
            end in
          let hand := if js_lt pitch (num_of_Z 60) then left else right in
          Some {| id := "note-" ++ int_to_string measureNumber ++ "-"
                         ++ Z_to_string (Z.of_nat noteIndex);
                  pitch := pitch;
                  start := currentTime;
                  duration := durationInSeconds;
                  end_ := js_add currentTime durationInSeconds;
                  measure := num_of_int measureNumber;
                  hand := hand;
                  finger := finger |}
      | None => None
      end
  | _, _ => None
  end.

(** The inner [forEach]: emitted notes, and the running clock
    [currentTime] after the measure. *)
Fixpoint process_notes (tempo divisions : jsnum) (measureNumber : option Z)
    (noteIndex : nat) (noteEls : list note_el) (currentTime : jsnum)
    : list Note * jsnum :=
  match noteEls with
  | [] => ([], currentTime)
  | noteEl :: rest =>
      match note_entry tempo divisions measureNumber noteIndex noteEl currentTime with
      | Some n =>
          let '(ns, t) := process_notes tempo divisions measureNumber (S noteIndex) rest
                            (js_add currentTime (duration n)) in
          (n :: ns, t)
      | None => process_notes tempo divisions measureNumber (S noteIndex) rest currentTime
      end
  end.

Definition measure_number (measureEl : measure_el) : option Z :=
  parseInt_Z (str_or (me_number measureEl) "1").

Definition measure_divisions (measureEl : measure_el) : jsnum :=
  match me_divisions measureEl with
  | Some t => parseInt (str_or (Some t) "4")
  | None => num_of_Z 4
  end.

(** The outer [measureElements.forEach]. *)
Fixpoint process_measures (tempo : jsnum) (measureEls : list measure_el)
    (currentTime : jsnum) : list Note * list MeasureTimestamp :=
  match measureEls with
  | [] => ([], [])
  | measureEl :: rest =>
      let measureNumber := measure_number measureEl in
      let measureStartTime := currentTime in
      let '(ns, t) := process_notes tempo (measure_divisions measureEl) measureNumber 0
                        (me_notes measureEl) currentTime in
      let '(ns', ms') := process_measures tempo rest t in
      (ns ++ ns',
       {| mt_measure := num_of_int measureNumber; mt_start := measureStartTime;
          mt_end := t |} :: ms')
  end.

(** The parsing part of [fetchAndParseMusicXML], after the document has
    been fetched and handed to [DOMParser]. *)
Definition fetchAndParseMusicXML (doc : score_doc) : MusicData :=
  let title := str_or (sd_work_title doc) "Untitled" in
  let composer := str_or (sd_composer doc) "Unknown" in
  let tempo := tempo_of doc in
  let '(notes, measures) := process_measures tempo (sd_measures doc) (num_of_Z 0) in
  {| notes := notes; measures := measures; title := title; composer := composer;
     tempo := tempo |}.

(** [getActiveNotesAtTime]; [musicData] is [None] before a parse. *)
Definition getActiveNotesAtTime (musicData : option MusicData) (time : jsnum) : list Note :=
  match musicData with
  | None => []
  | Some d => filter (fun note => js_ge time (start note) && js_le time (end_ note)) (notes d)
  end.

(** [getCurrentMeasureAtTime]: [currentMeasure?.measure || 1]. *)
Definition getCurrentMeasureAtTime (musicData : option MusicData) (time : jsnum) : jsnum :=
  match musicData with
  | None => num_of_Z 1
  | Some d =>
      match find (fun m => js_ge time (mt_start m) && js_le time (mt_end m)) (measures d) with
      | Some m => if js_truthy (mt_measure m) then mt_measure m else num_of_Z 1
      | None => num_of_Z 1
      end
  end.

(* ------------------------------------------------------------------ *)
(** ** Accuracy engine ([useMIDI.ts]) *)

Record MIDINote : Type := {
  note : Z;
  velocity : Z;
  timestamp : jsnum
}.

Record MIDIAccuracy : Type := {
  noteId : string;
  expectedNote : jsnum;
  actualNote : Z;
  timingOffset : jsnum;   (* in milliseconds *)
  isCorrect : bool
}.

Definition note_of (n : MIDINote) : Z := note n.

(** An element of [options.expectedNotes]. *)
Record ExpectedNote : Type := {
  en_id : string;
  en_pitch : jsnum;
  en_start : jsnum;
  en_end : jsnum
}.

Record UseMIDIOptions : Type := {
  expectedNotes : option (list ExpectedNote);
  currentTime : option jsnum
}.

(** The hook's state ([useState] cells). *)
Record midi_state : Type := {
  midiSupported : bool;
  selectedInput : option string;
  activeNotes : list MIDINote;
  accuracy : list MIDIAccuracy;
  errorMessage : option string
}.

Definition midi_init : midi_state :=
  {| midiSupported := false; selectedInput := None; activeNotes := [];
     accuracy := []; errorMessage := None |}.

Definition set_activeNotes (s : midi_state) (a : list MIDINote) : midi_state :=
  {| midiSupported := midiSupported s; selectedInput := selectedInput s;
     activeNotes := a; accuracy := accuracy s; errorMessage := errorMessage s |}.

Definition set_accuracy (s : midi_state) (a : list MIDIAccuracy) : midi_state :=
  {| midiSupported := midiSupported s; selectedInput := selectedInput s;
     activeNotes := activeNotes s; accuracy := a; errorMessage := errorMessage s |}.

(** The predicate given to [options.expectedNotes.find]. *)
Definition expected_match (currentTime : jsnum) (note : Z) (n : ExpectedNote) : bool :=
  js_lt (js_abs (js_sub (en_start n) currentTime)) (num_of_Z 1)
  && js_eq (en_pitch n) (num_of_Z note).

(** [handleMIDIMessage] on [message.data = [command, note, velocity]];
    [now] is [performance.now()] and [dateNow] is [Date.now()] at the
    time the message is handled. *)
Definition handleMIDIMessage (options : UseMIDIOptions) (now : jsnum) (dateNow : Z)
    (command note velocity : Z) (s : midi_state) : midi_state :=
  if (144 <=? command) && (command <=? 159) && (0 <? velocity) then
    let timestamp := now in
    let s1 := set_activeNotes s (activeNotes s ++
                [{| note := note; velocity := velocity; timestamp := timestamp |}]) in
    match expectedNotes options, currentTime options with
    | Some ens, Some currentTime =>
        match find (expected_match currentTime note) ens with
        | Some expectedNote =>
            let timingOffset :=
              js_round (js_mul (js_sub timestamp (en_start expectedNote)) (num_of_Z 1000)) in
            set_accuracy s1 (accuracy s1 ++
              [{| noteId := en_id expectedNote; expectedNote := en_pitch expectedNote;
                  actualNote := note; timingOffset := timingOffset; isCorrect := true |}])
        | None =>
            set_accuracy s1 (accuracy s1 ++
              [{| noteId := "wrong-" ++ Z_to_string dateNow; expectedNote := num_of_Z (-1);
                  actualNote := note; timingOffset := num_of_Z 0; isCorrect := false |}])
        end
    | _, _ => s1
    end
  else if ((128 <=? command) && (command <=? 143))
          || ((144 <=? command) && (command <=? 159) && (velocity =? 0)) then
    set_activeNotes s (filter (fun n => negb (note_of n =? note)) (activeNotes s))
  else s.

(** [resetStats]: [setAccuracy([])]. *)
Definition resetStats (s : midi_state) : midi_state := set_accuracy s [].

Definition count_correct (accuracy : list MIDIAccuracy) : nat :=
  List.length (filter (fun a => isCorrect a) accuracy).

Definition accuracyPercentage (accuracy : list MIDIAccuracy) : jsnum :=
  if (0 <? List.length accuracy)%nat then
    js_round (js_mul (js_div (num_of_Z (Z.of_nat (count_correct accuracy)))
                             (num_of_Z (Z.of_nat (List.length accuracy))))
                     (num_of_Z 100))
  else num_of_Z 0.

Definition averageTimingOffset (accuracy : list MIDIAccuracy) : jsnum :=
  if (0 <? List.length accuracy)%nat then
    js_round (js_div (fold_left (fun sum a => js_add sum (js_abs (timingOffset a)))
                                accuracy (num_of_Z 0))
                     (num_of_Z (Z.of_nat (List.length accuracy))))
  else num_of_Z 0.


(* ------------------------------------------------------------------ *)
(** ** Metronome ([useMetronome] in [useYouTube.ts]) *)

(** The callback given to [window.setInterval] by [start]: it closes over
    the [currentBeat] and [options.onTick] of the render [start] came from. *)
Record tick_closure : Type := {
  tc_interval : jsnum;
  tc_currentBeat : Z;
  tc_onTick : bool            (* options.onTick was supplied *)
}.

Record metronome_state : Type := {
  isPlaying : bool;
  bpm : jsnum;
  currentBeat : Z;
  intervalRef : option tick_closure
}.

Definition calculateInterval (tempo : jsnum) : jsnum := js_div (num_of_Z 60000) tempo.

(** [start]; [audio] is [audioRef.current !== null] and [onTick] whether
    [options.onTick] is supplied. *)
Definition metronome_start (audio onTick : bool) (s : metronome_state) : metronome_state :=
  if isPlaying s || negb audio then s else
  {| isPlaying := true; bpm := bpm s; currentBeat := 0;
     intervalRef := Some {| tc_interval := calculateInterval (bpm s);
                            tc_currentBeat := currentBeat s; tc_onTick := onTick |} |}.

(** [stop] *)
Definition metronome_stop (s : metronome_state) : metronome_state :=
  if negb (isPlaying s) then s else
  {| isPlaying := false; bpm := bpm s; currentBeat := currentBeat s; intervalRef := None |}.

(** One firing of the interval callback: the new state and the arguments
    passed to [options.onTick] during the firing. *)
Definition metronome_tick (audio : bool) (s : metronome_state) : metronome_state * list Z :=
  match intervalRef s with
  | None => (s, [])
  | Some tc =>
      if negb audio then (s, []) else
      ({| isPlaying := isPlaying s; bpm := bpm s;
          currentBeat := Z.rem (currentBeat s + 1) 4; intervalRef := intervalRef s |},
       if tc_onTick tc then [tc_currentBeat tc] else [])
  end.

Fixpoint metronome_ticks (n : nat) (audio : bool) (s : metronome_state)
    : metronome_state * list Z :=
  match n with
  | O => (s, [])
  | S k =>
      let '(s1, c1) := metronome_tick audio s in
      let '(s2, c2) := metronome_ticks k audio s1 in
      (s2, c1 ++ c2)
  end.

(* ------------------------------------------------------------------ *)
(** ** Hand filter ([getNotesByHand] in [useMusicXML.ts]) *)

(** [===] on the hand tags ['left'], ['right'], ['both']. *)
Definition Hand_eqb (a b : Hand) : bool :=
  match a, b with
  | left, left | right, right | both, both => true
  | _, _ => false
  end.

(** [getNotesByHand(hand_)]; [musicData] is [None] before a parse. *)
Definition getNotesByHand (musicData : option MusicData) (hand_ : Hand) : list Note :=
  match musicData with
  | None => []
  | Some d =>
      match hand_ with
      | both => notes d
      | _ => filter (fun n => Hand_eqb (hand n) hand_) (notes d)
      end
  end.

(* ------------------------------------------------------------------ *)
(** ** More of [useMetronome] *)

Definition set_bpm (s : metronome_state) (b : jsnum) : metronome_state :=
  {| isPlaying := isPlaying s; bpm := b; currentBeat := currentBeat s;
     intervalRef := intervalRef s |}.

(** [setTempo(newTempo)]: [setBpm(newTempo)]; when [isPlaying] and an
    interval is installed, that interval is cleared and a new one is set
    with period [calculateInterval(newTempo)] and the same tick body,
    closing over the render's [currentBeat] and [options.onTick]. *)
Definition metronome_setTempo (onTick : bool) (newTempo : jsnum) (s : metronome_state)
    : metronome_state :=
  match intervalRef s with
  | Some _ =>
      if isPlaying s then
        {| isPlaying := isPlaying s; bpm := newTempo; currentBeat := currentBeat s;
           intervalRef := Some {| tc_interval := calculateInterval newTempo;
                                  tc_currentBeat := currentBeat s; tc_onTick := onTick |} |}
      else set_bpm s newTempo
  | None => set_bpm s newTempo
  end.

(** The cleanup of the [options.enabled] effect: the interval is cleared
    and [intervalRef.current] set to [null]; [isPlaying] is not touched. *)
Definition metronome_enabled_cleanup (s : metronome_state) : metronome_state :=
  {| isPlaying := isPlaying s; bpm := bpm s; currentBeat := currentBeat s;
     intervalRef := None |}.

(** A change of [options.enabled] ([None] is [undefined]): the previous
    run's cleanup, then the effect body with the render's [start]/[stop]. *)
Definition metronome_enabled_effect (audio onTick : bool) (enabled : option bool)
    (s : metronome_state) : metronome_state :=
  let s0 := metronome_enabled_cleanup s in
  match enabled with
  | Some true => if negb (isPlaying s0) then metronome_start audio onTick s0 else s0
  | Some false => if isPlaying s0 then metronome_stop s0 else s0
  | None => s0
  end.

(* ------------------------------------------------------------------ *)
(** ** Statistics panel ([StatsPanel.tsx])

    The Tailwind colour classes and the Japanese/English texts are
    represented by tags. *)

Inductive color : Type := green | yellow | red.   (* 'text-green-500', ... *)

Definition getAccuracyColor (accuracy : jsnum) : color :=
  if js_ge accuracy (num_of_Z 90) then green
  else if js_ge accuracy (num_of_Z 70) then yellow
  else red.

Definition getTimingColor (timingOffset : jsnum) : color :=
  let absOffset := js_abs timingOffset in
  if js_le absOffset (num_of_Z 50) then green
  else if js_le absOffset (num_of_Z 100) then yellow
  else red.

(** ['完璧 (Perfect)'], [`${Math.abs(t)}ms 早い (Early)`], [`${t}ms 遅い (Late)`] *)
Inductive timing_description : Type :=
| Perfect
| Early (ms : jsnum)
| Late (ms : jsnum).

Definition getTimingDescription (timingOffset : jsnum) : timing_description :=
  if js_eq timingOffset (num_of_Z 0) then Perfect
  else if js_lt timingOffset (num_of_Z 0) then Early (js_abs timingOffset)
  else Late timingOffset.

(** The four list items of the tips block, in document order. *)
Inductive tip : Type := tip_practice_slowly | tip_late | tip_early | tip_great.

Definition stats_tips (isConnected : bool) (accuracy timingOffset notesPlayed : jsnum)
    : list tip :=
  if isConnected && js_lt (num_of_Z 10) notesPlayed then
    (if js_lt accuracy (num_of_Z 80) then [tip_practice_slowly] else []) ++
    (if js_lt (num_of_Z 50) (js_abs timingOffset) && js_lt (num_of_Z 0) timingOffset
     then [tip_late] else []) ++
    (if js_lt (num_of_Z 50) (js_abs timingOffset) && js_lt timingOffset (num_of_Z 0)
     then [tip_early] else []) ++
    (if js_lt (num_of_Z 90) accuracy && js_le (js_abs timingOffset) (num_of_Z 50)
     then [tip_great] else [])
  else [].

(* ------------------------------------------------------------------ *)
(** ** Time display ([formatTime] in [PracticeControls] and [YouTubePlayer]) *)

(** [Math.floor] *)
Definition js_floor (a : jsnum) : jsnum :=
  match a with
  | Fin q => num_of_Z (Qfloor q)
  | other => other
  end.

(** Truncation towards zero. *)
Definition Qtrunc (q : Q) : Z := if Qle_bool 0 q then Qfloor q else Qceiling q.

(** [a % b]: the remainder of the truncated division, of the sign of [a]. *)
Definition js_rem (a b : jsnum) : jsnum :=
  match a, b with
  | Fin x, Fin y => if Qeq_bool y 0 then NaN else Fin (x - y * inject_Z (Qtrunc (x / y)))
  | NaN, _ | _, NaN | Inf _, _ => NaN
  | Fin x, Inf _ => Fin x
  end.

(** [`${n}`] for a number [n] returned by [Math.floor] (so an integer when
    finite). *)
Definition int_num_to_string (a : jsnum) : string :=
  match a with
  | Fin q => Z_to_string (Qfloor q)
  | NaN => "NaN"
  | Inf false => "Infinity"
  | Inf true => "-Infinity"
  end.

Definition formatTime (seconds : jsnum) : string :=
  let mins := js_floor (js_div seconds (num_of_Z 60)) in
  let secs := js_floor (js_rem seconds (num_of_Z 60)) in
  int_num_to_string mins ++ ":" ++ (if js_lt secs (num_of_Z 10) then "0" else "")
    ++ int_num_to_string secs.

(* ------------------------------------------------------------------ *)
(** ** YouTube player hook ([useYouTube] in [useYouTube.ts])

    [window.YT.PlayerState.PLAYING] is 1.  Interval ids come from a counter
    starting at 1 (ids returned by [setInterval] are positive, so truthy). *)

(** The player object's own state, as the hook drives it. *)
Record yt_player : Type := {
  p_time : jsnum;          (* getCurrentTime() *)
  p_muted : bool;
  p_volume : jsnum
}.

Record yt_state : Type := {
  playerRef : option yt_player;          (* playerRef.current *)
  playerState : option Z;
  yt_currentTime : jsnum;                (* currentTime *)
  isMuted : bool;
  volume : jsnum;
  timeUpdateInterval : option nat;       (* timeUpdateInterval.current *)
  live_intervals : list nat;             (* set and not yet cleared *)
  next_interval : nat
}.

Definition yt_init : yt_state :=
  {| playerRef := None; playerState := None; yt_currentTime := num_of_Z 0;
     isMuted := false; volume := num_of_Z 100; timeUpdateInterval := None;
     live_intervals := []; next_interval := 1 |}.

Definition yt_with_player (s : yt_state) (p : option yt_player) : yt_state :=
  {| playerRef := p; playerState := playerState s; yt_currentTime := yt_currentTime s;
     isMuted := isMuted s; volume := volume s; timeUpdateInterval := timeUpdateInterval s;
     live_intervals := live_intervals s; next_interval := next_interval s |}.

(** [window.clearInterval(id)] *)
Definition yt_clearInterval (id : nat) (s : yt_state) : yt_state :=
  {| playerRef := playerRef s; playerState := playerState s;
     yt_currentTime := yt_currentTime s; isMuted := isMuted s; volume := volume s;
     timeUpdateInterval := timeUpdateInterval s;
     live_intervals := filter (fun j => negb (Nat.eqb j id)) (live_intervals s);
     next_interval := next_interval s |}.

Definition yt_set_ref (s : yt_state) (r : option nat) : yt_state :=
  {| playerRef := playerRef s; playerState := playerState s;
     yt_currentTime := yt_currentTime s; isMuted := isMuted s; volume := volume s;
     timeUpdateInterval := r; live_intervals := live_intervals s;
     next_interval := next_interval s |}.

(** [timeUpdateInterval.current = window.setInterval(..., 100)] *)
Definition yt_setInterval (s : yt_state) : yt_state :=
  {| playerRef := playerRef s; playerState := playerState s;
     yt_currentTime := yt_currentTime s; isMuted := isMuted s; volume := volume s;
     timeUpdateInterval := Some (next_interval s);
     live_intervals := next_interval s :: live_intervals s;
     next_interval := S (next_interval s) |}.

(** The player's [onStateChange] event handler. *)
Definition yt_onStateChange (data : Z) (s : yt_state) : yt_state :=
  let s1 := {| playerRef := playerRef s; playerState := Some data;
               yt_currentTime := yt_currentTime s; isMuted := isMuted s; volume := volume s;
               timeUpdateInterval := timeUpdateInterval s;
               live_intervals := live_intervals s; next_interval := next_interval s |} in
  if data =? 1 then
    let s2 := match timeUpdateInterval s1 with
              | Some id => yt_clearInterval id s1
              | None => s1
              end in
    yt_setInterval s2
  else
    match timeUpdateInterval s1 with
    | Some id => yt_set_ref (yt_clearInterval id s1) None
    | None => s1
    end.

(** The cleanup of the player effect: the interval is cleared but
    [timeUpdateInterval.current] is not reset; the player is destroyed. *)
Definition yt_cleanup (s : yt_state) : yt_state :=
  match timeUpdateInterval s with
  | Some id => yt_clearInterval id s
  | None => s
  end.

(** One firing of interval [id]: [setCurrentTime(playerRef.current.getCurrentTime())]
    and the arguments given to [options.onTimeUpdate]. *)
Definition yt_tick (onTimeUpdate : bool) (id : nat) (s : yt_state) : yt_state * list jsnum :=
  if existsb (Nat.eqb id) (live_intervals s) then
    match playerRef s with
    | Some p =>
        ({| playerRef := playerRef s; playerState := playerState s;
            yt_currentTime := p_time p; isMuted := isMuted s; volume := volume s;
            timeUpdateInterval := timeUpdateInterval s;
            live_intervals := live_intervals s; next_interval := next_interval s |},
         if onTimeUpdate then [p_time p] else [])
    | None => (s, [])
    end
  else (s, []).

(** [seekTo(seconds)] and the arguments given to [options.onTimeUpdate]. *)
Definition yt_seekTo (onTimeUpdate : bool) (seconds : jsnum) (s : yt_state)
    : yt_state * list jsnum :=
  match playerRef s with
  | Some p =>
      ({| playerRef := Some {| p_time := seconds; p_muted := p_muted p; p_volume := p_volume p |};
          playerState := playerState s; yt_currentTime := seconds; isMuted := isMuted s;
          volume := volume s; timeUpdateInterval := timeUpdateInterval s;
          live_intervals := live_intervals s; next_interval := next_interval s |},
       if onTimeUpdate then [seconds] else [])
  | None => (s, [])
  end.

(** [toggleMute] *)
Definition yt_toggleMute (s : yt_state) : yt_state :=
  match playerRef s with
  | Some p =>
      let m := negb (isMuted s) in    (* unMute() when muted, mute() otherwise *)
      {| playerRef := Some {| p_time := p_time p; p_muted := m; p_volume := p_volume p |};
         playerState := playerState s; yt_currentTime := yt_currentTime s; isMuted := m;
         volume := volume s; timeUpdateInterval := timeUpdateInterval s;
         live_intervals := live_intervals s; next_interval := next_interval s |}
  | None => s
  end.

(** [setVolume(value)] *)
Definition yt_setVolume (value : jsnum) (s : yt_state) : yt_state :=
  match playerRef s with
  | Some p =>
      {| playerRef := Some {| p_time := p_time p; p_muted := p_muted p; p_volume := value |};
         playerState := playerState s; yt_currentTime := yt_currentTime s;
         isMuted := isMuted s; volume := value; timeUpdateInterval := timeUpdateInterval s;
         live_intervals := live_intervals s; next_interval := next_interval s |}
  | None => s
  end.

(** States of the hook: the player is created (again after a cleanup),
    events arrive, intervals fire, and the returned functions are called. *)
Inductive yt_reachable : yt_state -> Prop :=
| yt_reach_init : yt_reachable yt_init
| yt_reach_create : forall s p, yt_reachable s -> yt_reachable (yt_with_player s (Some p))
| yt_reach_state : forall s data, yt_reachable s -> yt_reachable (yt_onStateChange data s)
| yt_reach_cleanup : forall s, yt_reachable s -> yt_reachable (yt_cleanup s)
| yt_reach_tick : forall s b id, yt_reachable s -> yt_reachable (fst (yt_tick b id s))
| yt_reach_seek : forall s b t, yt_reachable s -> yt_reachable (fst (yt_seekTo b t s))
| yt_reach_mute : forall s, yt_reachable s -> yt_reachable (yt_toggleMute s)
| yt_reach_volume : forall s v, yt_reachable s -> yt_reachable (yt_setVolume v s).

(** [Math.max] and [Math.min] on two numbers (NaN if either is NaN). *)
Definition js_max (a b : jsnum) : jsnum :=
  match a, b with
  | NaN, _ | _, NaN => NaN
  | _, _ => if js_lt a b then b else a
  end.

Definition js_min (a b : jsnum) : jsnum :=
  match a, b with
  | NaN, _ | _, NaN => NaN
  | _, _ => if js_lt b a then b else a
  end.

(** The keys handled by [YouTubePlayer]'s [keydown] listener. *)
Inductive key : Type := Space | ArrowLeft | ArrowRight | OtherKey.

(** The position given to [seekTo] for a key press, if any. *)
Definition keyboard_seek (k : key) (currentTime duration : jsnum) : option jsnum :=
  match k with
  | ArrowLeft => Some (js_max (num_of_Z 0) (js_sub currentTime (num_of_Z 5)))
  | ArrowRight => Some (js_min duration (js_add currentTime (num_of_Z 5)))
  | _ => None
  end.

(* ------------------------------------------------------------------ *)
(** ** Auxiliary notions and sample inputs used by the properties *)

(** An expected note of pitch 60 starting at transport time 0. *)
Definition en_c4 : ExpectedNote :=
  {| en_id := "n1"%string; en_pitch := num_of_Z 60; en_start := num_of_Z 0;
     en_end := num_of_Z 1 |}.

Definition metronome_stopped : metronome_state :=
  {| isPlaying := false; bpm := num_of_Z 120; currentBeat := 0; intervalRef := None |}.

(** Two JavaScript numbers denote the same value (NaN counted equal to NaN). *)
Definition js_same (a b : jsnum) : Prop :=
  match a, b with
  | Fin x, Fin y => x == y
  | NaN, NaN => True
  | Inf s, Inf t => s = t
  | _, _ => False
  end.







(** A reachable state holding one correct and one wrong record. *)
Definition midi_two_presses : midi_state :=
  handleMIDIMessage {| expectedNotes := Some [en_c4]; currentTime := Some (num_of_Z 0) |}
    (num_of_Z 0) 8 144 61 100
    (handleMIDIMessage {| expectedNotes := Some [en_c4]; currentTime := Some (num_of_Z 0) |}
       (num_of_Z 0) 7 144 60 100 midi_init).

(** Notes laid end to end from clock [c]: each starts where the previous
    one ended. *)
Fixpoint notes_chain (c : jsnum) (ns : list Note) : Prop :=
  match ns with
  | [] => True
  | n :: r => start n = c /\ end_ n = js_add c (duration n) /\
              notes_chain (js_add c (duration n)) r
  end.

(** [n] was emitted for a non-rest entry of [noteEls] with duration text
    [d], at tempo [tempo] and divisions [divisions]. *)
Definition note_from (tempo divisions : jsnum) (noteEls : list note_el) (n : Note) : Prop :=
  exists ne d, In ne noteEls /\ ne_rest ne = false /\ ne_duration ne = Some d /\
    duration n = js_mul (js_div (parseInt d) divisions) (js_div (num_of_Z 60) tempo).

(** [segs] lists, measure by measure, the notes emitted for each measure
    element of [measureEls], and [ms] the recorded timestamps, starting
    from clock [c]. *)
Fixpoint segments (tempo c : jsnum) (measureEls : list measure_el)
    (segs : list (list Note)) (ms : list MeasureTimestamp) : Prop :=
  match measureEls, segs, ms with
  | [], [], [] => True
  | me :: mes, seg :: segs', m :: ms' =>
      mt_start m = c /\ mt_measure m = num_of_int (measure_number me) /\
      process_notes tempo (measure_divisions me) (measure_number me) 0 (me_notes me) c
        = (seg, mt_end m) /\
      segments tempo (mt_end m) mes segs' ms'
  | _, _, _ => False
  end.

Definition nonneg_duration (n : Note) : Prop :=
  exists q, duration n = Fin q /\ (0 <= q)%Q.

(** What the parser's running clock can be when it starts at 0 and only
    non-negative finite durations are added: +Infinity or a non-negative
    double. *)
Definition clock_ok (c : jsnum) : Prop :=
  c = Inf false \/ exists a, c = Fin a /\ (0 <= a)%Q /\ fl a = Fin a.

(** Score documents used below. *)
Definition qnote (step octave dur : string) : note_el :=
  {| ne_rest := false; ne_step := Some step; ne_octave := Some octave; ne_alter := None;
     ne_duration := Some dur; ne_fingering := None |}.

Definition measure_of (number divisions : string) (noteEls : list note_el) : measure_el :=
  {| me_number := Some number; me_divisions := Some divisions; me_notes := noteEls |}.

Definition score_of (tempo : option string) (measureEls : list measure_el) : score_doc :=
  {| sd_work_title := None; sd_composer := None; sd_tempo := tempo;
     sd_measures := measureEls |}.

(** Tempo 72, one quarter note C (pitch 60) in measure 1. *)
Definition doc_quarter : score_doc :=
  score_of (Some "72"%string) [measure_of "1" "1" [qnote "C" "5" "1"]].

(** A note of duration [-1] in measure 1. *)
Definition doc_backwards : score_doc :=
  score_of (Some "74"%string)
    [measure_of "1" "1" [qnote "C" "5" "-1"]; measure_of "2" "1" [qnote "D" "5" "1"]].

(** Measure 1: a half note then a note of duration [-2], at tempo 60. *)
Definition doc_negative : score_doc :=
  score_of (Some "60"%string) [measure_of "1" "1" [qnote "C" "5" "2"; qnote "D" "5" "-2"]].

(** Measure 1 declares [<divisions>0</divisions>]. *)
Definition doc_div0 : score_doc :=
  score_of (Some "74"%string)
    [measure_of "1" "0" [qnote "C" "5" "1"]; measure_of "2" "1" [qnote "D" "5" "1"]].

(** Tempo 74: a quarter note in measure 1, a half note in measure 2. *)
Definition doc_round : score_doc :=
  score_of (Some "74"%string)
    [measure_of "1" "1" [qnote "C" "5" "1"]; measure_of "2" "1" [qnote "D" "5" "2"]].

(** A pickup measure numbered 0 before measure 1. *)
Definition doc_pickup : score_doc :=
  score_of (Some "74"%string)
    [measure_of "0" "1" [qnote "G" "4" "1"]; measure_of "1" "1" [qnote "C" "5" "4"]].

(** [<sound tempo="fast"/>] *)
Definition doc_fast : score_doc :=
  score_of (Some "fast"%string) [measure_of "1" "1" [qnote "C" "5" "1"]].

(** The sum of the durations of a list of notes. *)
Definition sum_durations (ns : list Note) : jsnum :=
  fold_right (fun n acc => js_add (duration n) acc) (num_of_Z 0) ns.

(** Non-negative or NaN: what an average of absolute values can be. *)
Definition js_nonneg (a : jsnum) : Prop :=
  match a with
  | Fin q => (0 <= q)%Q
  | NaN => True
  | Inf neg => neg = false
  end.

(** Colours of the statistics panel, from red to green. *)
Definition color_rank (c : color) : nat :=
  match c with red => 0 | yellow => 1 | green => 2 end.

(** At most one time-update interval is live, and then it is the one held
    in [timeUpdateInterval.current]. *)
Definition yt_interval_ok (s : yt_state) : Prop :=
  live_intervals s = [] \/
  exists id, live_intervals s = [id] /\ timeUpdateInterval s = Some id.

(** The seconds field of a time display (at most two-digit values). *)
Definition seconds_field (s : Z) : string :=
  (if s <? 10 then "0" else "") ++ Z_to_string s.


(** The hand tag the parser gives a note: ['left'] below middle C
    (pitch 60), ['right'] otherwise. *)
Definition hand_by_pitch (n : Note) : Prop :=
  hand n = if js_lt (pitch n) (num_of_Z 60) then left else right.

(** The metronome states reachable from a first render with any tempo:
    the returned [start], [stop] and [setTempo], interval firings, the
    [options.tempo] effect ([setBpm]) and changes of [options.enabled]. *)
Inductive metronome_reachable : metronome_state -> Prop :=
| mr_init (b : jsnum) :
    metronome_reachable {| isPlaying := false; bpm := b; currentBeat := 0; intervalRef := None |}
| mr_start (audio onTick : bool) (s : metronome_state) :
    metronome_reachable s -> metronome_reachable (metronome_start audio onTick s)
| mr_stop (s : metronome_state) :
    metronome_reachable s -> metronome_reachable (metronome_stop s)
| mr_tick (audio : bool) (s : metronome_state) :
    metronome_reachable s -> metronome_reachable (fst (metronome_tick audio s))
| mr_setTempo (onTick : bool) (t : jsnum) (s : metronome_state) :
    metronome_reachable s -> metronome_reachable (metronome_setTempo onTick t s)
| mr_set_bpm (b : jsnum) (s : metronome_state) :
    metronome_reachable s -> metronome_reachable (set_bpm s b)
| mr_enabled (audio onTick : bool) (e : option bool) (s : metronome_state) :
    metronome_reachable s -> metronome_reachable (metronome_enabled_effect audio onTick e s).

(* ================================================================== *)
(** * Properties *)



(** ** List helpers *)

(* ------------------------------------------------------------------ *)
(** ** Comparisons and binary64 rounding *)

Lemma Qlt_b_iff (x y : Q) : Qlt_b x y = true <-> (x < y)%Q.
Proof.
  unfold Qlt_b. rewrite negb_true_iff. split.
  - intros H. apply Qnot_le_lt. intros H'. apply Qle_bool_iff in H'. congruence.
  - intros H. destruct (Qle_bool y x) eqn:E; [|reflexivity].
    apply Qle_bool_iff in E. exfalso. apply (Qlt_not_le _ _ H E).
Qed.

Lemma Qlt_b_false_iff (x y : Q) : Qlt_b x y = false <-> (y <= x)%Q.
Proof.
  unfold Qlt_b. rewrite negb_false_iff. apply Qle_bool_iff.
Qed.

Lemma Qle_bool_false_iff (x y : Q) : Qle_bool x y = false <-> (y < x)%Q.
Proof.
  split; intros H.
  - apply Qnot_le_lt. intros H'. apply Qle_bool_iff in H'. congruence.
  - destruct (Qle_bool x y) eqn:E; [|reflexivity]. apply Qle_bool_iff in E. lra.
Qed.

Ltac q_facts := repeat match goal with
  | H : Qlt_b _ _ = true |- _ => apply Qlt_b_iff in H
  | H : Qlt_b _ _ = false |- _ => apply Qlt_b_false_iff in H
  | H : Qle_bool _ _ = true |- _ => apply Qle_bool_iff in H
  | H : Qle_bool _ _ = false |- _ => apply Qle_bool_false_iff in H
  | H : Qeq_bool _ _ = true |- _ => apply Qeq_bool_iff in H
  | H : Qeq_bool _ _ = false |- _ => apply Qeq_bool_neq in H
  | H : _ || _ = true |- _ => apply orb_true_iff in H; destruct H
  | H : _ || _ = false |- _ => apply orb_false_iff in H; destruct H
  | H : _ && _ = true |- _ => apply andb_prop in H; destruct H
  end.

Ltac qnum := first
  [ apply Qle_bool_iff; vm_compute; reflexivity
  | apply Qlt_b_iff; vm_compute; reflexivity
  | apply Qeq_bool_iff; vm_compute; reflexivity ].

Lemma js_le_fin_iff (x y : Q) : js_le (Fin x) (Fin y) = true <-> (x <= y)%Q.
Proof.
  unfold js_le, js_lt, js_eq. rewrite orb_true_iff, Qlt_b_iff, Qeq_bool_iff. split.
  - intros [H|H]; [apply Qlt_le_weak; exact H | rewrite H; apply Qle_refl].
  - intros H. destruct (Qlt_le_dec x y) as [H'|H']; [left; exact H' | right].
    apply Qle_antisym; assumption.
Qed.

Lemma js_le_trans (a b c : jsnum) :
  js_le a b = true -> js_le b c = true -> js_le a c = true.
Proof.
  destruct a as [x| |[|]], b as [y| |[|]], c as [z| |[|]]; intros H1 H2;
    try discriminate; try reflexivity.
  rewrite js_le_fin_iff in *. eapply Qle_trans; eauto.
Qed.


Lemma js_lt_le_false (a b : jsnum) : js_lt a b = true -> js_le b a = false.
Proof.
  unfold js_le.
  destruct a as [x| |[|]], b as [y| |[|]]; simpl; intros H; try discriminate; try reflexivity.
  q_facts. apply orb_false_iff. split.
  - apply Qlt_b_false_iff. apply Qlt_le_weak. exact H.
  - destruct (Qeq_bool y x) eqn:E; [|reflexivity]. q_facts. rewrite E in H.
    exfalso. apply (Qlt_irrefl _ H).
Qed.

Lemma js_le_lt_trans (a b c : jsnum) :
  js_le a b = true -> js_lt b c = true -> js_lt a c = true.
Proof.
  destruct a as [x| |[|]], b as [y| |[|]], c as [z| |[|]]; intros H1 H2;
    try discriminate; try reflexivity; simpl in *.
  rewrite js_le_fin_iff in H1. q_facts. apply Qlt_b_iff. eapply Qle_lt_trans; eauto.
  all: unfold js_le in H1; simpl in H1; try discriminate.
Qed.

Section Binary64.
Local Open Scope Q_scope.

Lemma Qpow2_pos (e : Z) : 0 < Qpow2 e.
Proof. apply Qpower_0_lt. reflexivity. Qed.

Lemma Qpow2_plus (a b : Z) : Qpow2 (a + b) == Qpow2 a * Qpow2 b.
Proof. unfold Qpow2. apply Qpower_plus. discriminate. Qed.

Lemma Qpow2_Z (z : Z) : (0 <= z)%Z -> Qpow2 z == inject_Z (2 ^ z).
Proof. intros H. unfold Qpow2. rewrite Zpower_Qpower by exact H. reflexivity. Qed.

Lemma Qpow2_succ (e : Z) : Qpow2 (e + 1) == 2 * Qpow2 e.
Proof. rewrite Qpow2_plus. unfold Qpow2 at 2. simpl. ring. Qed.

Lemma Qpow2_lt_inv (a b : Z) : Qpow2 a < Qpow2 b -> (a < b)%Z.
Proof. intros H. eapply Qpower_lt_compat_l_inv; [exact H | reflexivity]. Qed.

Lemma Qpow2_le (a b : Z) : (a <= b)%Z -> Qpow2 a <= Qpow2 b.
Proof. intros H. apply Qpower_le_compat_l; [exact H | discriminate]. Qed.

Lemma Qpow2_lt (a b : Z) : (a < b)%Z -> Qpow2 a < Qpow2 b.
Proof.
  intros H. apply Qlt_le_trans with (Qpow2 (a + 1)); [|apply Qpow2_le; lia].
  rewrite Qpow2_succ. pose proof (Qpow2_pos a). lra.
Qed.

Lemma binade_spec (q : Q) :
  0 < q -> Qpow2 (binade q) <= q < Qpow2 (binade q + 1).
Proof.
  destruct q as [n d]. intros Hq.
  assert (Hn : (0 < n)%Z) by (unfold Qlt in Hq; simpl in Hq; lia).
  unfold binade. simpl Qnum; simpl Qden.
  set (a := Z.log2 n). set (b := Z.log2 (Zpos d)).
  destruct (Z.log2_spec n Hn) as [Na1 Na2]. fold a in Na1, Na2.
  destruct (Z.log2_spec (Zpos d) ltac:(lia)) as [Db1 Db2]. fold b in Db1, Db2.
  assert (Ha : (0 <= a)%Z) by apply Z.log2_nonneg.
  assert (Hb : (0 <= b)%Z) by apply Z.log2_nonneg.
  set (P := Qpow2 (a - b)).
  assert (HP : P * inject_Z (2 ^ b) == inject_Z (2 ^ a)).
  { unfold P. rewrite <- (Qpow2_Z b Hb), <- Qpow2_plus, <- (Qpow2_Z a Ha).
    replace (a - b + b)%Z with a by ring. reflexivity. }
  assert (HP0 : 0 < P) by apply Qpow2_pos.
  assert (HqD : (n # d) * inject_Z (Zpos d) == inject_Z n).
  { unfold Qeq. simpl. lia. }
  rewrite Z.pow_succ_r in Na2, Db2 by assumption.
  assert (A1 : inject_Z (2 ^ a) <= inject_Z n) by (rewrite <- Zle_Qle; lia).
  assert (A2 : inject_Z n < 2 * inject_Z (2 ^ a)).
  { change 2 with (inject_Z 2). rewrite <- inject_Z_mult, <- Zlt_Qlt. lia. }
  assert (B1 : inject_Z (2 ^ b) <= inject_Z (Zpos d)) by (rewrite <- Zle_Qle; lia).
  assert (B2 : inject_Z (Zpos d) < 2 * inject_Z (2 ^ b)).
  { change 2 with (inject_Z 2). rewrite <- inject_Z_mult, <- Zlt_Qlt. lia. }
  assert (B0 : 0 < inject_Z (2 ^ b)).
  { change 0 with (inject_Z 0). rewrite <- Zlt_Qlt. apply Z.pow_pos_nonneg; lia. }
  set (D := inject_Z (Zpos d)) in *. set (N := inject_Z n) in *.
  set (Bb := inject_Z (2 ^ b)) in *. set (Aa := inject_Z (2 ^ a)) in *.
  set (x := (n # d)) in *.
  assert (L1 : P < 2 * x) by nra.
  assert (L2 : x < 2 * P) by nra.
  destruct (Qle_bool P x) eqn:E.
  - apply Qle_bool_iff in E. rewrite Qpow2_succ. fold P. lra.
  - apply Qle_bool_false_iff in E.
    assert (H2 : Qpow2 (a - b - 1 + 1) == 2 * Qpow2 (a - b - 1)) by apply Qpow2_succ.
    replace (a - b - 1 + 1)%Z with (a - b)%Z in * by ring. fold P in H2 |- *. split; lra.
Qed.


Lemma Qpow2_pred (e : Z) : Qpow2 e == 2 * Qpow2 (e - 1).
Proof. rewrite <- Qpow2_succ. replace (e - 1 + 1)%Z with e by ring. reflexivity. Qed.

Lemma binade_unique (q : Q) (E : Z) :
  Qpow2 E <= q < Qpow2 (E + 1) -> binade q = E.
Proof.
  intros [H1 H2]. assert (Hq : 0 < q) by (pose proof (Qpow2_pos E); lra).
  destruct (binade_spec q Hq) as [B1 B2].
  assert (C1 : (E < binade q + 1)%Z) by (apply Qpow2_lt_inv; lra).
  assert (C2 : (binade q < E + 1)%Z) by (apply Qpow2_lt_inv; lra).
  lia.
Qed.

Lemma binade_lt (q : Q) (K : Z) : 0 < q -> q < Qpow2 K -> (binade q < K)%Z.
Proof.
  intros Hq HK. destruct (binade_spec q Hq) as [B1 _]. apply Qpow2_lt_inv. lra.
Qed.

Lemma binade_ge (q : Q) (K : Z) : Qpow2 K <= q -> (K <= binade q)%Z.
Proof.
  intros HK. assert (Hq : 0 < q) by (pose proof (Qpow2_pos K); lra).
  destruct (binade_spec q Hq) as [_ B2].
  assert (C : (K < binade q + 1)%Z) by (apply Qpow2_lt_inv; lra). lia.
Qed.

Lemma binade_mono (x y : Q) : 0 < x -> x <= y -> (binade x <= binade y)%Z.
Proof.
  intros Hx Hxy. destruct (binade_spec x Hx) as [B1 _]. apply binade_ge. lra.
Qed.

Lemma Qfloor_bounds (m : Q) :
  inject_Z (Qfloor m) <= m /\ m < inject_Z (Qfloor m) + 1.
Proof.
  split; [apply Qfloor_le|]. pose proof (Qlt_floor m) as H.
  rewrite inject_Z_plus in H. exact H.
Qed.

Lemma round_even_char (m : Q) :
  let f := Qfloor m in
  let r := m - inject_Z f in
  (round_even m = f /\ (r < 1 # 2 \/ (r == 1 # 2 /\ Z.even f = true))) \/
  (round_even m = (f + 1)%Z /\ (1 # 2 < r \/ (r == 1 # 2 /\ Z.even f = false))).
Proof.
  intros f r. unfold round_even. fold f. fold r.
  destruct (Qlt_b r (1 # 2)) eqn:E1; q_facts; [left; auto|].
  destruct (Qlt_b (1 # 2) r) eqn:E2; q_facts; [right; auto|].
  assert (Hr : r == 1 # 2) by (apply Qle_antisym; auto).
  destruct (Z.even f) eqn:E3; [left | right]; auto.
Qed.

Lemma round_even_err (m : Q) : Qabs (inject_Z (round_even m) - m) <= 1 # 2.
Proof.
  destruct (round_even_char m) as [[-> H] | [-> H]];
    rewrite ?inject_Z_plus; destruct (Qfloor_bounds m);
    apply Qabs_case; intros; destruct H as [H|[H _]]; change (inject_Z 1) with 1 in *; lra.
Qed.

Lemma round_even_bounds (m : Q) :
  (Qfloor m <= round_even m <= Qfloor m + 1)%Z.
Proof. destruct (round_even_char m) as [[-> _] | [-> _]]; lia. Qed.

Lemma round_even_int (z : Z) : round_even (inject_Z z) = z.
Proof.
  unfold round_even. rewrite Qfloor_Z.
  replace (Qlt_b (inject_Z z - inject_Z z) (1 # 2)) with true; [reflexivity|].
  symmetry. apply Qlt_b_iff. lra.
Qed.

Lemma round_even_half : round_even (1 # 2) = 0%Z.
Proof. reflexivity. Qed.

Lemma round_even_mono (m m' : Q) : m <= m' -> (round_even m <= round_even m')%Z.
Proof.
  intros H.
  assert (Hf : (Qfloor m <= Qfloor m')%Z) by (apply Qfloor_resp_le; exact H).
  destruct (Z.eq_dec (Qfloor m) (Qfloor m')) as [Ef|Nf].
  - destruct (round_even_char m) as [[E1 H1] | [E1 H1]];
    destruct (round_even_char m') as [[E2 H2] | [E2 H2]]; rewrite E1, E2; try lia.
    exfalso. rewrite <- Ef in H2.
    destruct H1 as [H1|[H1 P1]], H2 as [H2|[H2 P2]]; try congruence; lra.
  - pose proof (round_even_bounds m). pose proof (round_even_bounds m'). lia.
Qed.

Lemma round_even_compat (m m' : Q) : m == m' -> round_even m = round_even m'.
Proof.
  intros H. apply Z.le_antisymm; apply round_even_mono; rewrite H; apply Qle_refl.
Qed.

Lemma round_even_le_int (m : Q) (z : Z) : m <= inject_Z z -> (round_even m <= z)%Z.
Proof. intros H. rewrite <- (round_even_int z). apply round_even_mono. exact H. Qed.

Lemma round_even_ge_int (m : Q) (z : Z) : inject_Z z <= m -> (z <= round_even m)%Z.
Proof. intros H. rewrite <- (round_even_int z). apply round_even_mono. exact H. Qed.

Lemma quantum_ge (q : Q) : (-1074 <= quantum q)%Z.
Proof. unfold quantum. lia. Qed.

Lemma round64_pos_split (q : Q) :
  q == (q / Qpow2 (quantum q)) * Qpow2 (quantum q).
Proof. pose proof (Qpow2_pos (quantum q)). field. lra. Qed.

Lemma round64_pos_err (q : Q) :
  Qabs (round64_pos q - q) <= Qpow2 (quantum q - 1).
Proof.
  unfold round64_pos. set (P := Qpow2 (quantum q)). set (m := q / P).
  assert (HP : 0 < P) by apply Qpow2_pos.
  assert (E : inject_Z (round_even m) * P - q == (inject_Z (round_even m) - m) * P).
  { unfold m. field. lra. }
  rewrite E, Qabs_Qmult. rewrite (Qabs_pos P) by lra.
  pose proof (Qpow2_pred (quantum q)) as HP2. fold P in HP2.
  pose proof (round_even_err m).
  apply Qle_trans with ((1 # 2) * P); [apply Qmult_le_compat_r; lra | lra].
Qed.

Lemma round64_pos_nonneg (q : Q) : 0 <= q -> 0 <= round64_pos q.
Proof.
  intros Hq. unfold round64_pos. pose proof (Qpow2_pos (quantum q)).
  assert (H0 : (0 <= round_even (q / Qpow2 (quantum q)))%Z).
  { apply round_even_ge_int. apply Qle_shift_div_l; [lra|]. change (inject_Z 0) with 0. lra. }
  apply Qmult_le_0_compat; [|lra]. change 0 with (inject_Z 0). rewrite <- Zle_Qle. exact H0.
Qed.

Lemma round64_pos_le_binade (q : Q) :
  0 < q -> round64_pos q <= Qpow2 (binade q + 1).
Proof.
  intros Hq. destruct (binade_spec q Hq) as [_ B2].
  unfold round64_pos. set (e := quantum q). set (P := Qpow2 e).
  assert (HP : 0 < P) by apply Qpow2_pos.
  assert (Hm : q / P < Qpow2 (binade q + 1 - e)).
  { apply Qlt_shift_div_r; [exact HP|]. unfold P. rewrite <- Qpow2_plus.
    replace (binade q + 1 - e + e)%Z with (binade q + 1)%Z by ring. exact B2. }
  destruct (Z_le_gt_dec 0 (binade q + 1 - e)) as [Hk|Hk].
  - rewrite (Qpow2_Z _ Hk) in Hm.
    assert (Hr : (round_even (q / P) <= 2 ^ (binade q + 1 - e))%Z)
      by (apply round_even_le_int; lra).
    apply Qle_trans with (inject_Z (2 ^ (binade q + 1 - e)) * P).
    + apply Qmult_le_compat_r; [rewrite <- Zle_Qle; exact Hr | lra].
    + rewrite <- (Qpow2_Z _ Hk). unfold P. rewrite <- Qpow2_plus.
      replace (binade q + 1 - e + e)%Z with (binade q + 1)%Z by ring. apply Qle_refl.
  - assert (Hh : Qpow2 (binade q + 1 - e) <= 1 # 2)
      by (change (1 # 2) with (Qpow2 (-1)); apply Qpow2_le; lia).
    assert (Hr : (round_even (q / P) <= 0)%Z).
    { rewrite <- round_even_half. apply round_even_mono. lra. }
    apply Qle_trans with 0; [|apply Qlt_le_weak, Qpow2_pos].
    apply Qle_trans with (inject_Z 0 * P); [|unfold inject_Z; lra].
    apply Qmult_le_compat_r; [rewrite <- Zle_Qle; exact Hr | lra].
Qed.

Lemma quantum_normal (q : Q) : (-1022 <= binade q)%Z -> quantum q = (binade q - 52)%Z.
Proof. unfold quantum. lia. Qed.

Lemma round64_pos_ge_binade (q : Q) :
  0 < q -> (-1022 <= binade q)%Z -> Qpow2 (binade q) <= round64_pos q.
Proof.
  intros Hq Hb. destruct (binade_spec q Hq) as [B1 _].
  unfold round64_pos. rewrite (quantum_normal q Hb). set (P := Qpow2 (binade q - 52)).
  assert (HP : 0 < P) by apply Qpow2_pos.
  assert (HB : Qpow2 (binade q) == inject_Z (2 ^ 52) * P).
  { rewrite <- (Qpow2_Z 52) by lia. unfold P. rewrite <- Qpow2_plus.
    replace (52 + (binade q - 52))%Z with (binade q) by ring. reflexivity. }
  assert (Hm : inject_Z (2 ^ 52) <= q / P).
  { apply Qle_shift_div_l; [exact HP|]. rewrite <- HB. exact B1. }
  assert (Hr : (2 ^ 52 <= round_even (q / P))%Z) by (apply round_even_ge_int; exact Hm).
  rewrite HB. apply Qmult_le_compat_r; [rewrite <- Zle_Qle; exact Hr | lra].
Qed.

Lemma round64_pos_mono (x y : Q) : 0 < x -> x <= y -> round64_pos x <= round64_pos y.
Proof.
  intros Hx Hxy. assert (Hy : 0 < y) by lra.
  pose proof (binade_mono x y Hx Hxy) as Hb.
  destruct (Z.eq_dec (quantum x) (quantum y)) as [Eq|Nq].
  - unfold round64_pos. rewrite Eq. set (P := Qpow2 (quantum y)).
    assert (HP : 0 < P) by apply Qpow2_pos.
    apply Qmult_le_compat_r; [|lra]. rewrite <- Zle_Qle. apply round_even_mono.
    apply Qmult_le_compat_r; [exact Hxy|]. apply Qinv_le_0_compat. lra.
  - assert (Hq : (quantum x < quantum y)%Z) by (unfold quantum in *; lia).
    assert (Hn : (-1022 <= binade y)%Z) by (unfold quantum in *; lia).
    assert (Hlt : (binade x < binade y)%Z) by (unfold quantum in *; lia).
    apply Qle_trans with (Qpow2 (binade x + 1)); [apply round64_pos_le_binade; exact Hx|].
    apply Qle_trans with (Qpow2 (binade y)); [apply Qpow2_le; lia|].
    apply round64_pos_ge_binade; assumption.
Qed.


Lemma Qred_inject_Z (z : Z) : Qred (inject_Z z) = inject_Z z.
Proof. destruct z as [|p|p]; [reflexivity| |]; destruct p; reflexivity. Qed.

Lemma Qeq_bool_false_intro (x y : Q) : ~ x == y -> Qeq_bool x y = false.
Proof. intros H. destruct (Qeq_bool x y) eqn:E; [q_facts; contradiction | reflexivity]. Qed.

Lemma fl_pos_eq (q : Q) : 0 < q ->
  fl q = if Qle_bool (Qpow2 1024) (round64_pos (Qred q)) then Inf false
         else Fin (Qred (round64_pos (Qred q))).
Proof.
  intros Hq. unfold fl.
  rewrite Qeq_bool_false_intro by (rewrite Qred_correct; lra).
  replace (Qlt_b 0 (Qred q)) with true by (symmetry; apply Qlt_b_iff; rewrite Qred_correct; exact Hq).
  reflexivity.
Qed.

Lemma fl_neg_eq (q : Q) : q < 0 ->
  fl q = if Qle_bool (Qpow2 1024) (round64_pos (- Qred q)) then Inf true
         else Fin (Qred (- round64_pos (- Qred q))).
Proof.
  intros Hq. unfold fl.
  rewrite Qeq_bool_false_intro by (rewrite Qred_correct; lra).
  replace (Qlt_b 0 (Qred q)) with false by (symmetry; apply Qlt_b_false_iff; rewrite Qred_correct; lra).
  reflexivity.
Qed.

Lemma fl_zero_eq (q : Q) : q == 0 -> fl q = Fin 0.
Proof. intros Hq. unfold fl. rewrite (Qred_complete q 0 Hq). reflexivity. Qed.

Lemma fl_compat (x y : Q) : x == y -> fl x = fl y.
Proof. intros H. unfold fl. rewrite (Qred_complete x y H). reflexivity. Qed.

Lemma fl_abs_err (q : Q) (K : Z) :
  (-1021 <= K <= 1023)%Z -> Qabs q < Qpow2 K ->
  exists r, fl q = Fin r /\ Qabs (r - q) <= Qpow2 (K - 54).
Proof.
  intros HK Hq.
  assert (Hpos : forall x, 0 < x -> x < Qpow2 K ->
            round64_pos x < Qpow2 1024 /\ Qabs (round64_pos x - x) <= Qpow2 (K - 54)).
  { intros x Hx HxK.
    pose proof (binade_lt x K Hx HxK) as Hb.
    pose proof (round64_pos_err x) as He.
    assert (Hqt : (quantum x - 1 <= K - 54)%Z) by (unfold quantum; lia).
    assert (He' : Qabs (round64_pos x - x) <= Qpow2 (K - 54))
      by (eapply Qle_trans; [exact He | apply Qpow2_le; exact Hqt]).
    split; [|exact He'].
    assert (A : Qpow2 (K - 54) <= Qpow2 K) by (apply Qpow2_le; lia).
    assert (B : Qpow2 (K + 1) <= Qpow2 1024) by (apply Qpow2_le; lia).
    pose proof (Qpow2_succ K).
    apply Qabs_Qle_condition in He'. lra. }
  destruct (Qlt_le_dec 0 q) as [Hp|Hn].
  - rewrite (fl_pos_eq q Hp).
    assert (Hq' : Qred q == q) by apply Qred_correct.
    rewrite Qabs_pos in Hq by lra.
    destruct (Hpos (Qred q) ltac:(lra) ltac:(lra)) as [Ho He].
    replace (Qle_bool (Qpow2 1024) (round64_pos (Qred q))) with false
      by (symmetry; apply Qle_bool_false_iff; exact Ho).
    eexists; split; [reflexivity|]. rewrite Qred_correct.
    apply Qabs_Qle_condition in He. apply Qabs_Qle_condition. lra.
  - destruct (Qeq_dec q 0) as [Hz|Hz].
    + exists 0. rewrite (fl_zero_eq q Hz). split; [reflexivity|].
      apply Qabs_Qle_condition. pose proof (Qpow2_pos (K - 54)). lra.
    + assert (Hneg : q < 0) by (apply Qle_lteq in Hn; destruct Hn; [auto | contradiction]).
      rewrite (fl_neg_eq q Hneg).
      assert (Hq' : Qred q == q) by apply Qred_correct.
      rewrite Qabs_neg in Hq by lra.
      destruct (Hpos (- Qred q) ltac:(lra) ltac:(lra)) as [Ho He].
      replace (Qle_bool (Qpow2 1024) (round64_pos (- Qred q))) with false
        by (symmetry; apply Qle_bool_false_iff; exact Ho).
      eexists; split; [reflexivity|]. rewrite Qred_correct.
      apply Qabs_Qle_condition in He. apply Qabs_Qle_condition. lra.
Qed.

Lemma fl_rel_err (q : Q) :
  Qpow2 (-1022) <= Qabs q -> Qabs q < Qpow2 1023 ->
  exists r, fl q = Fin r /\ Qabs (r - q) <= Qabs q * Qpow2 (-53).
Proof.
  intros H1 H2. assert (Hq : 0 < Qabs q) by (pose proof (Qpow2_pos (-1022)); lra).
  destruct (binade_spec _ Hq) as [B1 B2].
  assert (HB1 : (-1022 <= binade (Qabs q))%Z) by (apply binade_ge; exact H1).
  assert (HB2 : (binade (Qabs q) < 1023)%Z) by (apply binade_lt; assumption).
  destruct (fl_abs_err q (binade (Qabs q) + 1) ltac:(lia) B2) as (r & Hr & He).
  exists r. split; [exact Hr|]. eapply Qle_trans; [exact He|].
  replace (binade (Qabs q) + 1 - 54)%Z with (binade (Qabs q) + -53)%Z by ring.
  rewrite Qpow2_plus.
  apply Qmult_le_compat_r; [exact B1 | apply Qlt_le_weak, Qpow2_pos].
Qed.

Lemma fl_exact_pos (q : Q) (N e : Z) :
  (0 < N < 2 ^ 53)%Z -> (-1074 <= e)%Z -> q == inject_Z N * Qpow2 e ->
  q < Qpow2 1024 -> fl q = Fin (Qred q).
Proof.
  intros HN He Hq Hmax.
  assert (HP : 0 < Qpow2 e) by apply Qpow2_pos.
  assert (HN' : 0 < inject_Z N) by (change 0 with (inject_Z 0); rewrite <- Zlt_Qlt; lia).
  assert (HN2 : inject_Z N < inject_Z (2 ^ 53)) by (rewrite <- Zlt_Qlt; lia).
  assert (Hpos : 0 < q) by (rewrite Hq; apply Qmult_lt_0_compat; assumption).
  rewrite (fl_pos_eq q Hpos). set (q' := Qred q).
  assert (Hq'q : q' == q) by apply Qred_correct.
  assert (Hq' : q' == inject_Z N * Qpow2 e) by (rewrite Hq'q; exact Hq).
  assert (Hlt : q' < Qpow2 (e + 53)).
  { rewrite Hq', Qpow2_plus, (Qpow2_Z 53) by lia. nra. }
  assert (Hb : (binade q' < e + 53)%Z) by (apply binade_lt; [lra | exact Hlt]).
  set (t := quantum q').
  assert (Ht : (t <= e)%Z) by (unfold t, quantum; lia).
  assert (Hs : Qpow2 e == Qpow2 (e - t) * Qpow2 t).
  { rewrite <- Qpow2_plus. replace (e - t + t)%Z with e by ring. reflexivity. }
  assert (Hpt : 0 < Qpow2 t) by apply Qpow2_pos.
  assert (Hm : q' / Qpow2 t == inject_Z (N * 2 ^ (e - t))).
  { rewrite inject_Z_mult, <- (Qpow2_Z (e - t)) by lia. rewrite Hq', Hs. field. lra. }
  assert (Hr : round64_pos q' == q').
  { unfold round64_pos. fold t. rewrite (round_even_compat _ _ Hm), round_even_int.
    rewrite <- Hm. field. lra. }
  replace (Qle_bool (Qpow2 1024) (round64_pos q')) with false
    by (symmetry; apply Qle_bool_false_iff; rewrite Hr; lra).
  f_equal. apply Qred_complete. rewrite Hr. exact Hq'q.
Qed.

Lemma fl_int (z : Z) : (0 <= z < 2 ^ 53)%Z -> fl (inject_Z z) = Fin (inject_Z z).
Proof.
  intros Hz. destruct (Z.eq_dec z 0) as [->|Hnz]; [reflexivity|].
  rewrite (fl_exact_pos (inject_Z z) z 0) by
    (lia || (unfold Qpow2; simpl; ring) ||
     (apply Qlt_le_trans with (inject_Z (2 ^ 53));
      [rewrite <- Zlt_Qlt; lia | rewrite <- (Qpow2_Z 53) by lia; apply Qpow2_le; lia])).
  rewrite Qred_inject_Z. reflexivity.
Qed.

Lemma fl_fixed (q r : Q) : 0 < q -> fl q = Fin r -> fl r = Fin r.
Proof.
  intros Hq H. rewrite (fl_pos_eq q Hq) in H. set (q' := Qred q) in H.
  assert (Hq' : 0 < q') by (unfold q'; rewrite Qred_correct; exact Hq).
  destruct (Qle_bool (Qpow2 1024) (round64_pos q')) eqn:Ho; [discriminate|].
  assert (Er : r = Qred (round64_pos q')) by congruence. subst r. clear H. q_facts.
  set (t := quantum q') in *. set (N := round_even (q' / Qpow2 t)).
  assert (HR : round64_pos q' = inject_Z N * Qpow2 t) by reflexivity.
  assert (Hpt : 0 < Qpow2 t) by apply Qpow2_pos.
  assert (HN0 : (0 <= N)%Z).
  { apply round_even_ge_int. apply Qle_shift_div_l; [lra|]. change (inject_Z 0) with 0. lra. }
  assert (HNle : (N <= 2 ^ 53)%Z).
  { pose proof (round64_pos_le_binade q' Hq') as H1.
    assert (Htb : (binade q' - 52 <= t)%Z) by (unfold t, quantum; lia).
    assert (H2 : Qpow2 (binade q' + 1) <= inject_Z (2 ^ 53) * Qpow2 t).
    { rewrite <- (Qpow2_Z 53) by lia. rewrite <- Qpow2_plus. apply Qpow2_le. lia. }
    rewrite HR in H1. rewrite Zle_Qle. apply (Qmult_le_r _ _ (Qpow2 t) Hpt). lra. }
  assert (Hfix : fl (round64_pos q') = Fin (Qred (round64_pos q'))).
  { destruct (Z.eq_dec N 0) as [E0|E0].
    - rewrite (fl_zero_eq _) by (rewrite HR, E0; unfold inject_Z; ring).
      rewrite (Qred_complete _ 0) by (rewrite HR, E0; unfold inject_Z; ring). reflexivity.
    - destruct (Z.eq_dec N (2 ^ 53)) as [E1|E1].
      + apply (fl_exact_pos _ 1 (t + 53)); [lia | pose proof (quantum_ge q'); lia | | exact Ho].
        rewrite HR, E1, Qpow2_plus, <- (Qpow2_Z 53) by lia. change (inject_Z 1) with 1. ring.
      + apply (fl_exact_pos _ N t); [lia | apply quantum_ge | rewrite HR; reflexivity | exact Ho]. }
  rewrite (fl_compat (Qred (round64_pos q')) (round64_pos q') (Qred_correct _)). exact Hfix.
Qed.

Lemma fl_nonneg_cases (q : Q) : 0 <= q ->
  fl q = Inf false \/ exists r, fl q = Fin r /\ 0 <= r.
Proof.
  intros Hq. destruct (Qeq_dec q 0) as [Hz|Hz].
  - right. exists 0. split; [apply fl_zero_eq; exact Hz | apply Qle_refl].
  - assert (Hp : 0 < q) by (apply Qle_lteq in Hq; destruct Hq; [auto | symmetry in H; contradiction]).
    rewrite (fl_pos_eq q Hp).
    destruct (Qle_bool _ _); [left; reflexivity | right; eexists; split; [reflexivity|]].
    rewrite Qred_correct. apply round64_pos_nonneg. rewrite Qred_correct. lra.
Qed.

Lemma fl_nonpos_cases (q : Q) : q <= 0 ->
  fl q = Inf true \/ exists r, fl q = Fin r /\ r <= 0.
Proof.
  intros Hq. destruct (Qeq_dec q 0) as [Hz|Hz].
  - right. exists 0. split; [apply fl_zero_eq; exact Hz | apply Qle_refl].
  - assert (Hn : q < 0) by (apply Qle_lteq in Hq; destruct Hq; [auto | contradiction]).
    rewrite (fl_neg_eq q Hn).
    destruct (Qle_bool _ _); [left; reflexivity | right; eexists; split; [reflexivity|]].
    assert (H : 0 <= round64_pos (- Qred q))
      by (apply round64_pos_nonneg; rewrite Qred_correct; lra).
    rewrite Qred_correct. lra.
Qed.

Lemma fl_mono (x y : Q) : x <= y -> js_le (fl x) (fl y) = true.
Proof.
  intros Hxy. destruct (Qlt_le_dec 0 x) as [Hx|Hx].
  - assert (Hy : 0 < y) by lra.
    rewrite (fl_pos_eq x Hx), (fl_pos_eq y Hy).
    assert (Hm : round64_pos (Qred x) <= round64_pos (Qred y))
      by (apply round64_pos_mono; rewrite !Qred_correct; lra).
    destruct (Qle_bool (Qpow2 1024) (round64_pos (Qred y))) eqn:Ey;
    destruct (Qle_bool (Qpow2 1024) (round64_pos (Qred x))) eqn:Ex; try reflexivity.
    + q_facts. lra.
    + apply js_le_fin_iff.
      pose proof (Qred_correct (round64_pos (Qred x))).
      pose proof (Qred_correct (round64_pos (Qred y))). lra.
  - destruct (Qlt_le_dec y 0) as [Hy|Hy].
    + assert (Hx' : x < 0) by lra.
      rewrite (fl_neg_eq x Hx'), (fl_neg_eq y Hy).
      assert (Hm : round64_pos (- Qred y) <= round64_pos (- Qred x))
        by (apply round64_pos_mono; rewrite !Qred_correct; lra).
      destruct (Qle_bool (Qpow2 1024) (round64_pos (- Qred y))) eqn:Ey;
      destruct (Qle_bool (Qpow2 1024) (round64_pos (- Qred x))) eqn:Ex; try reflexivity.
      * q_facts. lra.
      * apply js_le_fin_iff.
        pose proof (Qred_correct (- round64_pos (- Qred x))).
        pose proof (Qred_correct (- round64_pos (- Qred y))). lra.
    + destruct (fl_nonpos_cases x Hx) as [-> | (r & -> & Hr)];
      destruct (fl_nonneg_cases y Hy) as [-> | (s & -> & Hs)]; try reflexivity.
      apply js_le_fin_iff. lra.
Qed.

End Binary64.

Lemma find_some_first {A} (f : A -> bool) (l : list A) (x : A) :
  find f l = Some x ->
  exists pre post, l = pre ++ x :: post /\ f x = true /\ Forall (fun y => f y = false) pre.
Proof.
  induction l as [|a l IH]; simpl; [discriminate|].
  case_eq (f a); intros Hfa H.
  - inversion H; subst. exists [], l. auto.
  - destruct (IH H) as (pre & post & -> & Hx & Hpre).
    exists (a :: pre), post. repeat split; auto.
Qed.

Lemma find_none_all {A} (f : A -> bool) (l : list A) :
  find f l = None -> Forall (fun y => f y = false) l.
Proof.
  induction l as [|a l IH]; simpl; [constructor|].
  case_eq (f a); intros Hfa H; [discriminate|]. constructor; auto.
Qed.

(** ** The accuracy engine *)

(** Claim C8: [resetStats] empties the accuracy log and leaves every other
    part of the hook's state, in particular the held notes, unchanged. *)
Theorem resetStats_frame (s : midi_state) :
  accuracy (resetStats s) = [] /\
  activeNotes (resetStats s) = activeNotes s /\
  midiSupported (resetStats s) = midiSupported s /\
  selectedInput (resetStats s) = selectedInput s /\
  errorMessage (resetStats s) = errorMessage s.
Proof. repeat split. Qed.

(** Claim C1: a note-on message handled with an expected-note list and a
    defined transport time appends exactly one record to the log: for the
    first expected note (in list order) within 1 s of the transport time and
    of the pressed pitch, a correct record with its id and pitch; when there
    is none, a ["wrong-"] record with expected pitch -1, offset 0 and
    [isCorrect = false]. *)
Theorem handleMIDIMessage_note_on_record (options : UseMIDIOptions) (now : jsnum)
    (dateNow command note velocity : Z) (s : midi_state)
    (ens : list ExpectedNote) (ct : jsnum)
    (Hcmd : 144 <= command <= 159) (Hvel : 0 < velocity)
    (Hens : expectedNotes options = Some ens) (Hct : currentTime options = Some ct) :
  let s' := handleMIDIMessage options now dateNow command note velocity s in
  (exists pre n post off,
      ens = pre ++ n :: post /\
      js_lt (js_abs (js_sub (en_start n) ct)) (num_of_Z 1) = true /\
      js_eq (en_pitch n) (num_of_Z note) = true /\
      Forall (fun m => expected_match ct note m = false) pre /\
      accuracy s' = accuracy s ++
        [{| noteId := en_id n; expectedNote := en_pitch n; actualNote := note;
            timingOffset := off; isCorrect := true |}])
  \/
  (Forall (fun m => expected_match ct note m = false) ens /\
   accuracy s' = accuracy s ++
     [{| noteId := "wrong-" ++ Z_to_string dateNow; expectedNote := num_of_Z (-1);
         actualNote := note; timingOffset := num_of_Z 0; isCorrect := false |}]).
Proof.
  simpl. unfold handleMIDIMessage.
  assert (Hc : (144 <=? command) && (command <=? 159) && (0 <? velocity) = true).
  { rewrite (proj2 (Z.leb_le _ _)), (proj2 (Z.leb_le _ _)), (proj2 (Z.ltb_lt _ _));
      simpl; lia. }
  rewrite Hc, Hens, Hct. simpl.
  case_eq (find (expected_match ct note) ens).
  - intros n Hf. left.
    destruct (find_some_first _ _ _ Hf) as (pre & post & Heq & Hn & Hpre).
    unfold expected_match in Hn. apply andb_prop in Hn as [Hn1 Hn2].
    eexists pre, n, post, _. repeat split; eauto.
  - intros Hf. right. split; [apply find_none_all; exact Hf | reflexivity].
Qed.

(** Claim C5 (code path): pitch 60 is pressed when the transport is exactly
    at the expected start 0, and [performance.now()] reads 1000 ms; the
    record is correct but its offset is [round((1000 - 0) * 1000) = 1000000],
    because the offset subtracts the score time in seconds from the page
    clock in milliseconds. *)
Lemma timingOffset_on_time_press :
  accuracy (handleMIDIMessage
              {| expectedNotes := Some [en_c4]; currentTime := Some (num_of_Z 0) |}
              (num_of_Z 1000) 0 144 60 100 midi_init)
  = [{| noteId := "n1"%string; expectedNote := num_of_Z 60; actualNote := 60;
        timingOffset := num_of_Z 1000000; isCorrect := true |}].
Proof. vm_compute. reflexivity. Qed.

(* ------------------------------------------------------------------ *)
(** ** Metronome *)

Lemma metronome_tick_running (s : metronome_state) (tc : tick_closure)
    (Hi : intervalRef s = Some tc) :
  currentBeat (fst (metronome_tick true s)) = Z.rem (currentBeat s + 1) 4 /\
  intervalRef (fst (metronome_tick true s)) = Some tc /\
  isPlaying (fst (metronome_tick true s)) = isPlaying s /\
  snd (metronome_tick true s) = (if tc_onTick tc then [tc_currentBeat tc] else []).
Proof. unfold metronome_tick. rewrite Hi. simpl. auto. Qed.

Lemma metronome_ticks_running (n : nat) (s : metronome_state) (tc : tick_closure)
    (Hi : intervalRef s = Some tc) (Hb : 0 <= currentBeat s < 4) :
  currentBeat (fst (metronome_ticks n true s)) = (currentBeat s + Z.of_nat n) mod 4 /\
  snd (metronome_ticks n true s) = (if tc_onTick tc then repeat (tc_currentBeat tc) n else []).
Proof.
  revert s Hi Hb. induction n as [|n IH]; intros s Hi Hb.
  - simpl. rewrite Z.add_0_r, Z.mod_small by lia. split; [reflexivity|].
    destruct (tc_onTick tc); reflexivity.
  - simpl. destruct (metronome_tick_running s tc Hi) as (Hb1 & Hi1 & _ & Hc1).
    destruct (metronome_tick true s) as [s1 c1] eqn:E1. simpl in *.
    assert (Hr : Z.rem (currentBeat s + 1) 4 = (currentBeat s + 1) mod 4)
      by (apply Z.rem_mod_nonneg; lia).
    assert (Hb1' : 0 <= currentBeat s1 < 4)
      by (rewrite Hb1, Hr; apply Z.mod_pos_bound; lia).
    destruct (IH s1 Hi1 Hb1') as [IH1 IH2].
    destruct (metronome_ticks n true s1) as [s2 c2] eqn:E2. simpl in *.
    split.
    + rewrite IH1, Hb1, Hr, Zplus_mod_idemp_l. f_equal. lia.
    + rewrite IH2, Hc1. destruct (tc_onTick tc); reflexivity.
Qed.

Lemma metronome_ticks_keep (n : nat) (s : metronome_state) (tc : tick_closure)
    (Hi : intervalRef s = Some tc) :
  intervalRef (fst (metronome_ticks n true s)) = Some tc /\
  isPlaying (fst (metronome_ticks n true s)) = isPlaying s.
Proof.
  revert s Hi. induction n as [|n IH]; intros s Hi; simpl; [auto|].
  destruct (metronome_tick_running s tc Hi) as (_ & Hi1 & Hp1 & _).
  destruct (metronome_tick true s) as [s1 c1] eqn:E1. simpl in *.
  destruct (IH s1 Hi1) as [IH1 IH2].
  destruct (metronome_ticks n true s1) as [s2 c2]. simpl in *.
  rewrite IH2, Hp1. auto.
Qed.

Lemma metronome_stopped_no_interval (s : metronome_state) :
  metronome_reachable s -> isPlaying s = false -> intervalRef s = None.
Proof.
  induction 1 as [b|audio onTick s Hs IH|s Hs IH|audio s Hs IH|onTick t s Hs IH
                  |b s Hs IH|audio onTick e s Hs IH].
  - reflexivity.
  - unfold metronome_start. destruct (isPlaying s || negb audio); simpl; auto.
    discriminate.
  - unfold metronome_stop. destruct (isPlaying s); simpl; auto.
  - unfold metronome_tick. destruct (intervalRef s) eqn:E; [destruct audio|]; simpl;
      intros Hp; specialize (IH ltac:(congruence)); congruence.
  - unfold metronome_setTempo. destruct (intervalRef s) eqn:E;
      [destruct (isPlaying s) eqn:E2|]; simpl; intros Hp; try discriminate;
      specialize (IH ltac:(congruence)); congruence.
  - simpl. exact IH.
  - unfold metronome_enabled_effect, metronome_enabled_cleanup.
    destruct e as [[|]|]; simpl; [|destruct (isPlaying s); simpl; auto|auto].
    destruct (isPlaying s); simpl; [auto|].
    unfold metronome_start. destruct audio; simpl; [discriminate|auto].
Qed.

(** In every reachable state the beat, and the beat captured by an
    installed interval callback, lie in [0, 3]. *)
Lemma metronome_beat_range (s : metronome_state) :
  metronome_reachable s ->
  0 <= currentBeat s < 4 /\ (forall tc, intervalRef s = Some tc -> 0 <= tc_currentBeat tc < 4).
Proof.
  induction 1 as [b|audio onTick s Hs IH|s Hs IH|audio s Hs IH|onTick t s Hs IH
                  |b s Hs IH|audio onTick e s Hs IH].
  - split; [simpl; lia | discriminate].
  - destruct IH as [IH1 IH2]. unfold metronome_start.
    destruct (isPlaying s || negb audio); [split; assumption|].
    simpl. split; [lia|]. intros tc H. injection H as <-. exact IH1.
  - destruct IH as [IH1 IH2]. unfold metronome_stop.
    destruct (negb (isPlaying s)); [split; assumption|].
    simpl. split; [exact IH1 | discriminate].
  - destruct IH as [IH1 IH2]. unfold metronome_tick.
    destruct (intervalRef s) as [tc0|] eqn:E; [destruct audio|]; simpl;
      (split; [|intros tc H; apply IH2; congruence]); try assumption.
    rewrite Z.rem_mod_nonneg by lia. apply Z.mod_pos_bound. lia.
  - destruct IH as [IH1 IH2]. unfold metronome_setTempo, set_bpm.
    destruct (intervalRef s) as [tc0|] eqn:E; [destruct (isPlaying s)|]; simpl;
      (split; [exact IH1|]); intros tc H.
    + injection H as <-. exact IH1.
    + apply IH2. congruence.
    + apply IH2. congruence.
  - destruct IH as [IH1 IH2]. simpl. split; assumption.
  - destruct IH as [IH1 IH2]. unfold metronome_enabled_effect, metronome_enabled_cleanup.
    destruct e as [[|]|]; simpl.
    + destruct (isPlaying s); simpl; [split; [exact IH1 | discriminate]|].
      unfold metronome_start. destruct audio; simpl.
      * split; [lia|]. intros tc H. injection H as <-. exact IH1.
      * split; [exact IH1 | discriminate].
    + destruct (isPlaying s); simpl; split; (exact IH1 || discriminate).
    + split; [exact IH1 | discriminate].
Qed.

(** Claim C6 (what the code does): in every reachable state where an
    interval is installed (so the metronome is playing), each firing, with
    the click audio loaded, sets [beat := (beat + 1) % 4]: the beat stays
    in [0, 3], a fixed 4/4 cycle 1, 2, 3, 0 that never takes the value 4
    and ignores any beats-per-measure setting; after [n] firings it is
    [(beat + n) mod 4].  A supplied [onTick] callback is called once per
    firing, every time with the beat captured when the interval was
    installed, not with the beat the firing produces. *)
Theorem metronome_tick_beat (s : metronome_state) (tc : tick_closure)
    (Hs : metronome_reachable s) (Hi : intervalRef s = Some tc) :
  isPlaying s = true /\
  0 <= currentBeat s < 4 /\ 0 <= tc_currentBeat tc < 4 /\
  currentBeat (fst (metronome_tick true s)) = (currentBeat s + 1) mod 4 /\
  intervalRef (fst (metronome_tick true s)) = Some tc /\
  isPlaying (fst (metronome_tick true s)) = true /\
  snd (metronome_tick true s) = (if tc_onTick tc then [tc_currentBeat tc] else []) /\
  (forall n, currentBeat (fst (metronome_ticks n true s)) = (currentBeat s + Z.of_nat n) mod 4 /\
             snd (metronome_ticks n true s) =
               (if tc_onTick tc then repeat (tc_currentBeat tc) n else [])).
Proof.
  assert (Hp : isPlaying s = true).
  { destruct (isPlaying s) eqn:E; [reflexivity|].
    rewrite (metronome_stopped_no_interval s Hs E) in Hi. discriminate. }
  destruct (metronome_beat_range s Hs) as [Hb Htc].
  specialize (Htc tc Hi).
  destruct (metronome_tick_running s tc Hi) as (T1 & T2 & T3 & T4).
  split; [exact Hp|]. split; [exact Hb|]. split; [exact Htc|].
  split; [rewrite T1; apply Z.rem_mod_nonneg; lia|].
  split; [exact T2|]. split; [rewrite T3; exact Hp|]. split; [exact T4|].
  intros n. apply (metronome_ticks_running n s tc Hi Hb).
Qed.

Lemma metronome_tick_beat_witness :
  let s := metronome_start true true metronome_stopped in
  metronome_reachable s /\
  snd (metronome_ticks 4 true s) = [0; 0; 0; 0] /\
  currentBeat (fst (metronome_ticks 4 true s)) = 0.
Proof.
  cbv zeta.
  assert (Hs : metronome_reachable (metronome_start true true metronome_stopped))
    by (apply mr_start; apply (mr_init (num_of_Z 120))).
  set (tc := {| tc_interval := calculateInterval (num_of_Z 120); tc_currentBeat := 0;
                tc_onTick := true |}).
  assert (Hi : intervalRef (metronome_start true true metronome_stopped) = Some tc)
    by reflexivity.
  destruct (metronome_tick_beat _ tc Hs Hi) as (_ & _ & _ & _ & _ & _ & _ & Hn).
  destruct (Hn 4%nat) as [B C].
  split; [exact Hs|]. split; [exact C | exact B].
Defined.

Lemma handleMIDIMessage_note_on_record_witness :
  List.length (accuracy (handleMIDIMessage
    {| expectedNotes := Some [en_c4]; currentTime := Some (num_of_Z 0) |}
    (num_of_Z 0) 7 144 60 100 midi_init)) = 1%nat.
Proof.
  destruct (handleMIDIMessage_note_on_record
              {| expectedNotes := Some [en_c4]; currentTime := Some (num_of_Z 0) |}
              (num_of_Z 0) 7 144 60 100 midi_init [en_c4] (num_of_Z 0)
              ltac:(lia) ltac:(lia) eq_refl eq_refl)
    as [(pre & n & post & off & _ & _ & _ & _ & H) | (_ & H)];
    rewrite H; reflexivity.
Defined.

(* ------------------------------------------------------------------ *)
(** ** Aggregates of the accuracy log *)

Lemma count_correct_le (log : list MIDIAccuracy) : (count_correct log <= List.length log)%nat.
Proof.
  unfold count_correct. induction log as [|a r IH]; simpl; [lia|].
  destruct (isCorrect a); simpl; lia.
Qed.

Lemma Qeq_bool_inject_pos (n : Z) : 0 < n -> Qeq_bool (inject_Z n) 0 = false.
Proof.
  intros Hn. apply Qeq_bool_false_intro. intros E. unfold Qeq in E. simpl in E. lia.
Qed.

Section Aggregates.
Local Open Scope Q_scope.


Lemma js_le_between (a b : Q) (x : jsnum) :
  js_le (Fin a) x = true -> js_le x (Fin b) = true -> exists r, x = Fin r /\ a <= r <= b.
Proof.
  intros H1 H2. destruct x as [r| |[]]; try (cbn in *; discriminate).
  exists r. apply js_le_fin_iff in H1, H2. auto.
Qed.

Lemma fl_between (q a b : Q) :
  fl a = Fin a -> fl b = Fin b -> a <= q <= b -> exists r, fl q = Fin r /\ a <= r <= b.
Proof.
  intros Ha Hb [H1 H2]. apply js_le_between.
  - rewrite <- Ha. apply fl_mono. exact H1.
  - rewrite <- Hb. apply fl_mono. exact H2.
Qed.

Lemma js_div_num (c n : Z) :
  (0 < n)%Z -> js_div (num_of_Z c) (num_of_Z n) = fl (inject_Z c / inject_Z n).
Proof. intros Hn. cbv [js_div num_of_Z]. rewrite Qeq_bool_inject_pos by lia. reflexivity. Qed.

Lemma Qfloor_unique (x : Q) (k : Z) :
  inject_Z k <= x -> x < inject_Z k + 1 -> Qfloor x = k.
Proof.
  intros H1 H2.
  assert (A : (k <= Qfloor x)%Z).
  { rewrite <- (Qfloor_Z k) at 1. apply Qfloor_resp_le. exact H1. }
  assert (B : (Qfloor x < k + 1)%Z).
  { rewrite Zlt_Qlt, inject_Z_plus. pose proof (Qfloor_le x). change (inject_Z 1) with 1. lra. }
  lia.
Qed.









End Aggregates.









(* ------------------------------------------------------------------ *)
(** ** The score parser *)

Lemma note_entry_some tempo divisions mn idx ne c n :
  note_entry tempo divisions mn idx ne c = Some n ->
  start n = c /\ end_ n = js_add c (duration n) /\ measure n = num_of_int mn /\
  ne_rest ne = false /\
  exists d, ne_duration ne = Some d /\
    duration n = js_mul (js_div (parseInt d) divisions) (js_div (num_of_Z 60) tempo).
Proof.
  unfold note_entry.
  destruct (ne_rest ne); [discriminate|].
  destruct (ne_step ne), (ne_octave ne); try discriminate.
  destruct (_ || _); [discriminate|].
  destruct (ne_duration ne) as [d|]; [|discriminate].
  destruct (negb (str_truthy d)); [discriminate|].
  intros H; inversion H; subst; simpl. repeat split; eauto.
Qed.

Lemma note_entry_rest tempo divisions mn idx ne c :
  ne_rest ne = true -> note_entry tempo divisions mn idx ne c = None.
Proof. intros H. unfold note_entry. rewrite H. reflexivity. Qed.

Lemma process_notes_shape tempo divisions mn idx noteEls c ns t :
  process_notes tempo divisions mn idx noteEls c = (ns, t) ->
  notes_chain c ns /\
  t = fold_left (fun c n => js_add c (duration n)) ns c /\
  Forall (fun n => measure n = num_of_int mn) ns /\
  Forall (note_from tempo divisions noteEls) ns.
Proof.
  revert idx c ns t. induction noteEls as [|ne r IH]; intros idx c ns t; simpl.
  - intros H; inversion H; subst. simpl. repeat split; constructor.
  - destruct (note_entry tempo divisions mn idx ne c) as [n|] eqn:E.
    + destruct (note_entry_some _ _ _ _ _ _ _ E) as (Hs & He & Hm & Hr & d & Hd & Hdur).
      destruct (process_notes tempo divisions mn (S idx) r (js_add c (duration n)))
        as [ns1 t1] eqn:E1.
      intros H; inversion H; subst.
      destruct (IH _ _ _ _ E1) as (C & T & M & F).
      split; [simpl; auto|]. split; [simpl; auto|]. split; [constructor; auto|].
      constructor.
      * exists ne, d. simpl. auto.
      * eapply Forall_impl; [|exact F].
        intros x (ne' & d' & ?). exists ne', d'. simpl. intuition.
    + intros H. destruct (IH _ _ _ _ H) as (C & T & M & F).
      repeat split; auto.
      eapply Forall_impl; [|exact F].
      intros x (ne' & d' & ?). exists ne', d'. simpl. intuition.
Qed.

Lemma process_notes_rests tempo divisions mn idx noteEls c :
  (forall ne, In ne noteEls -> ne_rest ne = true) ->
  process_notes tempo divisions mn idx noteEls c = ([], c).
Proof.
  revert idx. induction noteEls as [|ne r IH]; intros idx H; simpl; [reflexivity|].
  rewrite note_entry_rest by (apply H; left; reflexivity).
  apply IH. intros; apply H; right; assumption.
Qed.

Lemma process_measures_segments tempo measureEls c :
  exists segs,
    fst (process_measures tempo measureEls c) = List.concat segs /\
    segments tempo c measureEls segs (snd (process_measures tempo measureEls c)).
Proof.
  revert c. induction measureEls as [|me r IH]; intros c; simpl.
  - exists []. simpl. auto.
  - destruct (process_notes tempo (measure_divisions me) (measure_number me) 0
                (me_notes me) c) as [ns t] eqn:E.
    destruct (IH t) as (segs & H1 & H2).
    destruct (process_measures tempo r t) as [ns' ms'] eqn:E'. simpl in *.
    exists (ns :: segs). simpl. subst. auto.
Qed.

Lemma segments_contiguous tempo c measureEls segs ms :
  segments tempo c measureEls segs ms ->
  forall i m1 m2, nth_error ms i = Some m1 -> nth_error ms (S i) = Some m2 ->
  mt_end m1 = mt_start m2.
Proof.
  revert c segs ms. induction measureEls as [|me r IH]; intros c segs ms H i m1 m2;
    destruct segs as [|seg segs], ms as [|m ms]; simpl in H; try contradiction.
  - destruct i; discriminate.
  - destruct H as (_ & _ & _ & H).
    destruct i as [|i]; simpl.
    + intros E1 E2. inversion E1; subst.
      destruct r, segs, ms; simpl in H; try contradiction; try discriminate.
      destruct H as (H & _). inversion E2; subst. auto.
    + apply (IH _ _ _ H).
Qed.

Lemma segments_index tempo c measureEls segs ms :
  segments tempo c measureEls segs ms ->
  List.length segs = List.length measureEls /\ List.length ms = List.length measureEls /\
  forall i me m seg, nth_error measureEls i = Some me -> nth_error ms i = Some m ->
    nth_error segs i = Some seg ->
    mt_measure m = num_of_int (measure_number me) /\
    process_notes tempo (measure_divisions me) (measure_number me) 0 (me_notes me)
      (mt_start m) = (seg, mt_end m).
Proof.
  revert c segs ms. induction measureEls as [|me r IH]; intros c segs ms H;
    destruct segs as [|seg segs], ms as [|m ms]; simpl in H; try contradiction.
  - split; [reflexivity|]. split; [reflexivity|].
    intros [|i]; discriminate.
  - destruct H as (Hs & Hm & Hp & H).
    destruct (IH _ _ _ H) as (L1 & L2 & Hi).
    simpl. split; [congruence|]. split; [congruence|].
    intros [|i] me' m' seg'; simpl.
    + intros E1 E2 E3; inversion E1; inversion E2; inversion E3; subst. auto.
    + apply Hi.
Qed.

Lemma segments_first tempo c measureEls segs m ms :
  segments tempo c measureEls segs (m :: ms) -> mt_start m = c.
Proof. destruct measureEls, segs; simpl; tauto. Qed.

Lemma parse_segments (doc : score_doc) :
  exists segs,
    notes (fetchAndParseMusicXML doc) = List.concat segs /\
    segments (tempo_of doc) (num_of_Z 0) (sd_measures doc) segs
             (measures (fetchAndParseMusicXML doc)).
Proof.
  unfold fetchAndParseMusicXML.
  destruct (process_measures_segments (tempo_of doc) (sd_measures doc) (num_of_Z 0))
    as (segs & H1 & H2).
  destruct (process_measures (tempo_of doc) (sd_measures doc) (num_of_Z 0)). simpl in *.
  eauto.
Qed.

Lemma clock_ok_zero : clock_ok (num_of_Z 0).
Proof. right. exists 0%Q. split; [reflexivity|]. split; [apply Qle_refl | reflexivity]. Qed.

Lemma clock_ok_le_refl (c : jsnum) : clock_ok c -> js_le c c = true.
Proof. intros [->|(a & -> & _)]; [reflexivity|]. apply js_le_fin_iff. apply Qle_refl. Qed.

Lemma clock_ok_step (c : jsnum) (q : Q) : clock_ok c -> (0 <= q)%Q ->
  clock_ok (js_add c (Fin q)) /\ js_le c (js_add c (Fin q)) = true.
Proof.
  intros [->|(a & -> & Ha & Hfa)] Hq.
  - split; [left; reflexivity | reflexivity].
  - change (js_add (Fin a) (Fin q)) with (fl (a + q)). split.
    + destruct (fl_nonneg_cases (a + q) ltac:(lra)) as [E|(r & E & Hr)]; rewrite E;
        [left; reflexivity|].
      right. exists r. split; [reflexivity|]. split; [exact Hr|].
      destruct (Qlt_le_dec 0 (a + q)) as [Hp|Hz].
      * exact (fl_fixed _ _ Hp E).
      * rewrite (fl_zero_eq (a + q)) in E by lra. injection E as <-. reflexivity.
    + rewrite <- Hfa at 1. apply fl_mono. lra.
Qed.

Lemma chain_bounds (c : jsnum) (ns : list Note) :
  notes_chain c ns -> Forall nonneg_duration ns -> clock_ok c ->
  clock_ok (fold_left (fun c n => js_add c (duration n)) ns c) /\
  js_le c (fold_left (fun c n => js_add c (duration n)) ns c) = true /\
  Forall (fun n => js_le c (start n) = true /\ js_le (start n) (end_ n) = true /\
                   js_le (end_ n) (fold_left (fun c n => js_add c (duration n)) ns c) = true) ns.
Proof.
  revert c. induction ns as [|n r IH]; intros c Hc Hd Ho; cbn [fold_left].
  - split; [exact Ho|]. split; [apply clock_ok_le_refl; exact Ho | constructor].
  - destruct Hc as (Hs & He & Hc). apply Forall_cons_iff in Hd as [(q & Hq & Hq0) Hr].
    rewrite Hq in *.
    destruct (clock_ok_step c q Ho Hq0) as [Ho' Hle].
    destruct (IH _ Hc Hr Ho') as (Ht & Hle' & F).
    split; [exact Ht|]. split; [eapply js_le_trans; eauto|].
    constructor.
    + rewrite Hs, He. split; [apply clock_ok_le_refl; exact Ho|]. split; [exact Hle | exact Hle'].
    + eapply Forall_impl; [|exact F]. intros x (A & B & C).
      split; [eapply js_le_trans; eauto | auto].
Qed.

Lemma segments_nil_r tempo c measureEls segs :
  segments tempo c measureEls segs [] -> measureEls = [] /\ segs = [].
Proof. destruct measureEls, segs; simpl; tauto. Qed.

Lemma segments_bounds tempo (c : jsnum) measureEls segs ms :
  segments tempo c measureEls segs ms -> clock_ok c ->
  Forall nonneg_duration (List.concat segs) ->
  Forall (fun m => js_le (mt_start m) (mt_end m) = true) ms /\
  (forall pre m, ms = pre ++ [m] ->
     js_le c (mt_end m) = true /\
     Forall (fun n => js_le (end_ n) (mt_end m) = true) (List.concat segs)).
Proof.
  revert c segs ms. induction measureEls as [|me r IH]; intros c segs ms H Ho Hd;
    destruct segs as [|seg segs], ms as [|m0 ms]; simpl in H; try contradiction.
  - split; [constructor|]. intros pre m E. destruct pre; discriminate.
  - destruct H as (Hs & _ & Hp & H). simpl in Hd. apply Forall_app in Hd as [Hd1 Hd2].
    destruct (process_notes_shape _ _ _ _ _ _ _ _ Hp) as (C & T & _ & _).
    destruct (chain_bounds c seg C Hd1 Ho) as (Hb & Hcb & F).
    rewrite <- T in Hb, Hcb, F.
    destruct (IH (mt_end m0) segs ms H Hb Hd2) as [IH1 IH2].
    split.
    + constructor; auto. rewrite Hs. exact Hcb.
    + intros [|p pre] m E; simpl in E; inversion E; subst.
      * destruct (segments_nil_r _ _ _ _ H) as [-> ->].
        split; [exact Hcb|].
        simpl. rewrite app_nil_r. eapply Forall_impl; [|exact F]. intros x (_ & _ & X). exact X.
      * destruct (IH2 pre m eq_refl) as (Hz & F2).
        split; [eapply js_le_trans; eauto|].
        simpl. apply Forall_app. split; [|exact F2].
        eapply Forall_impl; [|exact F]. intros x (_ & _ & X). eapply js_le_trans; eauto.
Qed.

Lemma segments_provenance tempo c measureEls segs ms :
  segments tempo c measureEls segs ms ->
  Forall (fun n => exists me, In me measureEls /\
            note_from tempo (measure_divisions me) (me_notes me) n) (List.concat segs).
Proof.
  revert c segs ms. induction measureEls as [|me r IH]; intros c segs ms H;
    destruct segs as [|seg segs], ms as [|m0 ms]; simpl in H; try contradiction.
  - constructor.
  - destruct H as (_ & _ & Hp & H). simpl. apply Forall_app. split.
    + destruct (process_notes_shape _ _ _ _ _ _ _ _ Hp) as (_ & _ & _ & F).
      eapply Forall_impl; [|exact F]. intros n Hn. exists me. split; [left|]; auto.
    + eapply Forall_impl; [|exact (IH _ _ _ H)].
      intros n (me' & ? & ?). exists me'. split; [right|]; auto.
Qed.

Example doc_quarter_parse :
  notes (fetchAndParseMusicXML doc_quarter) =
  [{| id := "note-1-0"; pitch := num_of_Z 60; start := num_of_Z 0;
      end_ := js_div (num_of_Z 60) (num_of_Z 72); duration := js_div (num_of_Z 60) (num_of_Z 72);
      measure := num_of_Z 1;
      hand := right; finger := None |}].
Proof. vm_compute. reflexivity. Qed.

(** Claim C3 (as stated, refuted): with a note of duration [-1] in measure 1,
    measure 2 starts (at -60/74 s) before measure 1 (at 0): the measure list
    is not monotonically increasing. *)
Lemma measures_partition_counterexample :
  match measures (fetchAndParseMusicXML doc_backwards) with
  | [m1; m2] => js_lt (mt_start m2) (mt_start m1) = true /\
                js_lt (mt_end m1) (mt_start m1) = true
  | _ => False
  end.
Proof. vm_compute. split; reflexivity. Qed.

(** Claim C3 (amended): consecutive measures are contiguous
    ([measure[i].end = measure[i+1].start]), the first measure starts at 0,
    and each measure has [start <= end] whenever every emitted note has a
    finite non-negative duration. *)
Theorem measures_partition (doc : score_doc) :
  let ms := measures (fetchAndParseMusicXML doc) in
  (forall i m1 m2, nth_error ms i = Some m1 -> nth_error ms (S i) = Some m2 ->
     mt_end m1 = mt_start m2) /\
  (forall m, hd_error ms = Some m -> mt_start m = num_of_Z 0) /\
  (Forall nonneg_duration (notes (fetchAndParseMusicXML doc)) ->
     Forall (fun m => js_le (mt_start m) (mt_end m) = true) ms).
Proof.
  destruct (parse_segments doc) as (segs & Hn & Hs). simpl.
  split; [|split].
  - eapply segments_contiguous; exact Hs.
  - intros m Hm. destruct (measures (fetchAndParseMusicXML doc)) as [|m0 ms]; 
      [discriminate|]. simpl in Hm. inversion Hm; subst.
    eapply segments_first; exact Hs.
  - intros Hd. rewrite Hn in Hd.
    destruct (segments_bounds _ _ _ _ _ Hs clock_ok_zero Hd) as [F _]. exact F.
Qed.

Lemma measures_partition_witness :
  Forall nonneg_duration (notes (fetchAndParseMusicXML doc_quarter)) /\
  Forall (fun m => js_le (mt_start m) (mt_end m) = true)
         (measures (fetchAndParseMusicXML doc_quarter)).
Proof.
  assert (H : Forall nonneg_duration (notes (fetchAndParseMusicXML doc_quarter))).
  { rewrite doc_quarter_parse. constructor; [|constructor].
    exists (7505999378950827 # 9007199254740992). split; [vm_compute; reflexivity|].
    apply Qle_bool_iff. reflexivity. }
  split; [exact H|].
  destruct (measures_partition doc_quarter) as (_ & _ & P). exact (P H).
Defined.

Lemma filter_all_false {A} (f : A -> bool) (l : list A) :
  Forall (fun x => f x = false) l -> filter f l = [].
Proof. induction 1; simpl; [reflexivity|]. rewrite H. exact IHForall. Qed.

(** Claim C4 (as stated, refuted): at tempo 60, a half note followed by a
    note of duration [-2] leaves the only measure ending at 0, yet at time
    1 > 0 the first note (0 to 2 s) is still active. *)
Lemma active_notes_counterexample :
  let md := fetchAndParseMusicXML doc_negative in
  match measures md with
  | [m] => js_lt (mt_end m) (num_of_Z 1) = true /\
           getActiveNotesAtTime (Some md) (num_of_Z 1) <> []
  | _ => False
  end.
Proof. vm_compute. split; [reflexivity | discriminate]. Qed.

(** Claim C4 (amended): [activeNotesAtTime] returns, in score order, exactly
    the notes with [start <= t <= end] (both ends inclusive), and returns the
    empty list for every [t] strictly after the final measure's end whenever
    every emitted note has a finite non-negative duration. *)
Theorem getActiveNotesAtTime_closed (doc : score_doc) (t : jsnum) :
  let md := fetchAndParseMusicXML doc in
  getActiveNotesAtTime (Some md) t
    = filter (fun n => js_le (start n) t && js_le t (end_ n)) (notes md) /\
  (forall n, In n (getActiveNotesAtTime (Some md) t) <->
     In n (notes md) /\ js_le (start n) t = true /\ js_le t (end_ n) = true) /\
  (forall pre m, measures md = pre ++ [m] -> Forall nonneg_duration (notes md) ->
     js_lt (mt_end m) t = true -> getActiveNotesAtTime (Some md) t = []).
Proof.
  simpl. split; [reflexivity|]. split.
  - intros n. unfold getActiveNotesAtTime, js_ge. rewrite filter_In.
    rewrite andb_true_iff. tauto.
  - intros pre m Hm Hd Ht.
    destruct (parse_segments doc) as (segs & Hn & Hs).
    rewrite Hn in Hd.
    destruct (segments_bounds _ _ _ _ _ Hs clock_ok_zero Hd) as [_ B].
    destruct (B pre m Hm) as (_ & F).
    unfold getActiveNotesAtTime. rewrite Hn. apply filter_all_false.
    eapply Forall_impl; [|exact F]. intros n Hen.
    rewrite (js_lt_le_false _ _ (js_le_lt_trans _ _ _ Hen Ht)). apply andb_false_r.
Qed.

Lemma getActiveNotesAtTime_closed_witness :
  getActiveNotesAtTime (Some (fetchAndParseMusicXML doc_quarter)) (num_of_Z 1) = [].
Proof.
  destruct (getActiveNotesAtTime_closed doc_quarter (num_of_Z 1)) as (_ & _ & P).
  apply (P [] {| mt_measure := num_of_Z 1; mt_start := num_of_Z 0;
                 mt_end := js_div (num_of_Z 60) (num_of_Z 72) |});
    [vm_compute; reflexivity | | vm_compute; reflexivity].
  rewrite doc_quarter_parse. constructor; [|constructor].
  exists (7505999378950827 # 9007199254740992). split; [vm_compute; reflexivity|].
  apply Qle_bool_iff. reflexivity.
Defined.

(** Claim C9 (code path): in a score whose first measure is a pickup
    numbered 0, time 0 lies in that measure, yet [currentMeasure?.measure || 1]
    reports measure 1, as 0 is falsy. *)
Lemma current_measure_pickup :
  let md := fetchAndParseMusicXML doc_pickup in
  match measures md with
  | m0 :: _ => mt_measure m0 = num_of_Z 0 /\
               js_le (mt_start m0) (num_of_Z 0) = true /\
               js_le (num_of_Z 0) (mt_end m0) = true /\
               getCurrentMeasureAtTime (Some md) (num_of_Z 0) = num_of_Z 1
  | [] => False
  end.
Proof. vm_compute. repeat split. Qed.

(** Claim C7 (as stated, refuted): [<sound tempo="fast"/>] is present but
    malformed; the parser does not fall back to 74 but takes
    [parseInt("fast") = NaN], and every note duration becomes NaN. *)
Lemma tempo_counterexample :
  tempo (fetchAndParseMusicXML doc_fast) = NaN /\
  tempo (fetchAndParseMusicXML doc_fast) <> num_of_Z 74 /\
  map duration (notes (fetchAndParseMusicXML doc_fast)) = [NaN].
Proof. vm_compute. repeat split. discriminate. Qed.

(** Claim C7 (amended): the tempo is read once from the score-level tempo
    declaration: 74 when it is absent or its value is empty, otherwise
    [parseInt] of its value (the leading integer, NaN when there is none);
    that one value is the score's tempo and every emitted note's duration is
    [(duration / divisions) * (60 / tempo)] with it. *)
Theorem tempo_read_once (doc : score_doc) :
  (sd_tempo doc = None -> tempo_of doc = num_of_Z 74) /\
  (sd_tempo doc = Some ""%string -> tempo_of doc = num_of_Z 74) /\
  (forall a, sd_tempo doc = Some a -> a <> ""%string -> tempo_of doc = parseInt a) /\
  tempo (fetchAndParseMusicXML doc) = tempo_of doc /\
  Forall (fun n => exists me, In me (sd_measures doc) /\
            note_from (tempo_of doc) (measure_divisions me) (me_notes me) n)
         (notes (fetchAndParseMusicXML doc)).
Proof.
  unfold tempo_of. split; [|split; [|split; [|split]]].
  - intros ->. reflexivity.
  - intros ->. reflexivity.
  - intros a -> Ha. simpl. destruct a; [congruence | reflexivity].
  - unfold fetchAndParseMusicXML. destruct (process_measures _ _ _). reflexivity.
  - destruct (parse_segments doc) as (segs & Hn & Hs). rewrite Hn.
    eapply segments_provenance. exact Hs.
Qed.

Lemma tempo_read_once_witness :
  tempo_of doc_fast = parseInt "fast" /\ parseInt "fast" = NaN.
Proof.
  split; [|reflexivity].
  destruct (tempo_read_once doc_fast) as (_ & _ & P & _).
  apply P; [reflexivity | discriminate].
Defined.

(** Claim C10 (as stated, refuted): measure 1 declares divisions 0, so its
    note lasts Infinity seconds; measure 2 then starts and ends at Infinity
    and [end - start] is NaN, not the duration of its one note.  And at
    tempo 74, a half note in measure 2 after a quarter note in measure 1
    lasts [2 * (60 / 74) = 1.6216216216216217] s, while its measure's
    [end - start], both ends rounded to doubles, is
    [1.6216216216216215]: smaller than the sum of its durations. *)
Lemma measure_extent_counterexample :
  (let md := fetchAndParseMusicXML doc_div0 in
   match measures md, notes md with
   | [_; m2], [_; n2] =>
       mt_measure m2 = measure n2 /\
       js_sub (mt_end m2) (mt_start m2) = NaN /\
       ~ js_same (js_sub (mt_end m2) (mt_start m2)) (sum_durations [n2])
   | _, _ => False
   end) /\
  (let md := fetchAndParseMusicXML doc_round in
   match measures md, notes md with
   | [_; m2], [_; n2] =>
       mt_measure m2 = measure n2 /\
       js_lt (num_of_Z 0) (mt_start m2) = true /\ js_lt (mt_start m2) (num_of_Z 1) = true /\
       js_sub (mt_end m2) (mt_start m2) = Fin (3651567265435537 # 2251799813685248) /\
       sum_durations [n2] = Fin (7303134530871075 # 4503599627370496) /\
       js_lt (js_sub (mt_end m2) (mt_start m2)) (sum_durations [n2]) = true
   | _, _ => False
   end).
Proof.
  split.
  - vm_compute. split; [reflexivity | split; [reflexivity | intros []]].
  - vm_compute. repeat split; reflexivity.
Qed.

(** Claim C10 (amended): rest entries (and entries lacking step, octave or
    duration) emit no note and leave the running clock where it is; each
    measure's notes are laid end to end from its start, and its end is its
    start advanced by each emitted duration in turn (each addition rounded
    to a double), so a measure whose entries are all rests has
    [start = end]. *)
Theorem measure_extent (doc : score_doc) :
  let md := fetchAndParseMusicXML doc in
  exists segs,
    notes md = List.concat segs /\
    List.length segs = List.length (sd_measures doc) /\
    List.length (measures md) = List.length (sd_measures doc) /\
    forall i me m seg,
      nth_error (sd_measures doc) i = Some me -> nth_error (measures md) i = Some m ->
      nth_error segs i = Some seg ->
      Forall (fun n => measure n = mt_measure m) seg /\
      Forall (note_from (tempo_of doc) (measure_divisions me) (me_notes me)) seg /\
      notes_chain (mt_start m) seg /\
      mt_end m = fold_left (fun c n => js_add c (duration n)) seg (mt_start m) /\
      ((forall ne, In ne (me_notes me) -> ne_rest ne = true) ->
         seg = [] /\ mt_end m = mt_start m).
Proof.
  destruct (parse_segments doc) as (segs & Hn & Hs).
  destruct (segments_index _ _ _ _ _ Hs) as (L1 & L2 & Hi).
  exists segs. split; [exact Hn|]. split; [exact L1|]. split; [exact L2|].
  intros i me m seg E1 E2 E3.
  destruct (Hi i me m seg E1 E2 E3) as (Hm & Hp).
  destruct (process_notes_shape _ _ _ _ _ _ _ _ Hp) as (C & T & M & F).
  split; [rewrite Hm; exact M|]. split; [exact F|]. split; [exact C|].
  split; [exact T|].
  intros Hr. rewrite process_notes_rests in Hp by exact Hr.
  inversion Hp; auto.
Qed.

Lemma measure_extent_witness :
  nth_error (sd_measures doc_quarter) 0 = Some (measure_of "1" "1" [qnote "C" "5" "1"]) /\
  exists m, nth_error (measures (fetchAndParseMusicXML doc_quarter)) 0 = Some m /\
    mt_end m = js_add (mt_start m) (js_div (num_of_Z 60) (num_of_Z 72)).
Proof.
  split; [reflexivity|].
  destruct (measure_extent doc_quarter) as (segs & Hn & L1 & L2 & P).
  destruct segs as [|seg [|]]; simpl in L1; try discriminate.
  set (m := {| mt_measure := num_of_Z 1; mt_start := num_of_Z 0;
                mt_end := js_div (num_of_Z 60) (num_of_Z 72) |}).
  assert (Hm : nth_error (measures (fetchAndParseMusicXML doc_quarter)) 0 = Some m)
    by (vm_compute; reflexivity).
  exists m. split; [exact Hm|].
  destruct (P 0%nat _ m seg eq_refl Hm eq_refl) as (_ & _ & _ & T & _).
  assert (Hseg : seg = notes (fetchAndParseMusicXML doc_quarter))
    by (rewrite Hn; simpl; rewrite app_nil_r; reflexivity).
  rewrite T, Hseg, doc_quarter_parse. reflexivity.
Defined.

(* ================================================================== *)
(** * Further properties of the code *)

(** ** Accuracy engine: releases, other messages, log growth *)

Lemma note_on_false (command velocity : Z) :
  command < 144 \/ 159 < command \/ velocity <= 0 ->
  (144 <=? command) && (command <=? 159) && (0 <? velocity) = false.
Proof.
  intros H. destruct (144 <=? command) eqn:E1, (command <=? 159) eqn:E2, (0 <? velocity) eqn:E3;
    simpl; auto; rewrite ?Z.leb_le, ?Z.ltb_lt in *; lia.
Qed.

Lemma note_on_true (command velocity : Z) :
  144 <= command <= 159 -> 0 < velocity ->
  (144 <=? command) && (command <=? 159) && (0 <? velocity) = true.
Proof.
  intros H1 H2. rewrite (proj2 (Z.leb_le _ _)), (proj2 (Z.leb_le _ _)), (proj2 (Z.ltb_lt _ _));
    auto; lia.
Qed.

Lemma filter_filter_comm {A} (f g : A -> bool) (l : list A) :
  filter f (filter g l) = filter g (filter f l).
Proof.
  induction l as [|a l IH]; simpl; [reflexivity|].
  destruct (g a) eqn:Eg, (f a) eqn:Ef; simpl; rewrite ?Eg, ?Ef, IH; reflexivity.
Qed.

Lemma filter_true_on {A} (f : A -> bool) (l : list A) :
  Forall (fun x => f x = true) l -> filter f l = l.
Proof. induction 1; simpl; [reflexivity|]. rewrite H, IHForall. reflexivity. Qed.

Lemma filter_pitch_other (p q : Z) (l : list MIDINote) :
  p <> q ->
  filter (fun n => note_of n =? p) (filter (fun n => negb (note_of n =? q)) l)
  = filter (fun n => note_of n =? p) l.
Proof.
  intros Hpq. rewrite filter_filter_comm. apply filter_true_on.
  apply Forall_forall. intros x Hx. apply filter_In in Hx as [_ Hx].
  apply Z.eqb_eq in Hx. apply negb_true_iff, Z.eqb_neq. congruence.
Qed.

(** A note-off message (command 128-143, or a note-on 144-159 of velocity
    0) drops every held note of the released pitch, keeps the held notes of
    every other pitch as they were, and never touches the accuracy log or
    the selected input. *)
Theorem handleMIDIMessage_note_off (options : UseMIDIOptions) (now : jsnum)
    (dateNow command note velocity : Z) (s : midi_state)
    (Hoff : 128 <= command <= 143 \/ (144 <= command <= 159 /\ velocity = 0)) :
  let s' := handleMIDIMessage options now dateNow command note velocity s in
  accuracy s' = accuracy s /\
  selectedInput s' = selectedInput s /\
  Forall (fun n => note_of n <> note) (activeNotes s') /\
  (forall p, p <> note ->
     filter (fun n => note_of n =? p) (activeNotes s')
     = filter (fun n => note_of n =? p) (activeNotes s)).
Proof.
  simpl. unfold handleMIDIMessage.
  rewrite note_on_false by lia.
  assert (Hc : ((128 <=? command) && (command <=? 143))
               || ((144 <=? command) && (command <=? 159) && (velocity =? 0)) = true).
  { destruct Hoff as [H|H].
    - rewrite (proj2 (Z.leb_le 128 command)), (proj2 (Z.leb_le command 143)) by lia.
      reflexivity.
    - rewrite (proj2 (Z.leb_le 144 command)), (proj2 (Z.leb_le command 159)),
        (proj2 (Z.eqb_eq velocity 0)) by lia.
      apply orb_true_r. }
  rewrite Hc. simpl. split; [reflexivity|]. split; [reflexivity|]. split.
  - apply Forall_forall. intros x Hx. apply filter_In in Hx as [_ Hx].
    apply negb_true_iff, Z.eqb_neq in Hx. exact Hx.
  - intros p Hp. apply filter_pitch_other. exact Hp.
Qed.

Lemma handleMIDIMessage_note_off_witness :
  activeNotes (handleMIDIMessage {| expectedNotes := None; currentTime := None |}
                 (num_of_Z 5) 0 128 60 0 midi_two_presses)
  = [{| note := 61; velocity := 100; timestamp := num_of_Z 0 |}].
Proof.
  destruct (handleMIDIMessage_note_off {| expectedNotes := None; currentTime := None |}
              (num_of_Z 5) 0 128 60 0 midi_two_presses ltac:(lia)) as (_ & _ & _ & H).
  pose proof (H 61 ltac:(discriminate)) as H61.
  vm_compute in H61. vm_compute. reflexivity.
Defined.

(** A message whose status byte is not a note message (below 128 or above
    159: control change, program change, pitch bend, system messages, ...)
    leaves the hook's state unchanged. *)
Theorem handleMIDIMessage_other (options : UseMIDIOptions) (now : jsnum)
    (dateNow command note velocity : Z) (s : midi_state)
    (Hcmd : command < 128 \/ 159 < command) :
  handleMIDIMessage options now dateNow command note velocity s = s.
Proof.
  unfold handleMIDIMessage. rewrite note_on_false by lia.
  destruct (128 <=? command) eqn:E1, (command <=? 143) eqn:E2, (144 <=? command) eqn:E3,
    (command <=? 159) eqn:E4; simpl; auto; rewrite ?Z.leb_le, ?Z.leb_gt in *; lia.
Qed.

Lemma handleMIDIMessage_other_witness :
  handleMIDIMessage {| expectedNotes := Some [en_c4]; currentTime := Some (num_of_Z 0) |}
    (num_of_Z 0) 0 176 64 127 midi_two_presses = midi_two_presses.
Proof. apply handleMIDIMessage_other. lia. Defined.

(** Without an expected-note list or without a transport time, a note-on
    only appends the pressed key to the held notes and logs nothing. *)
Theorem handleMIDIMessage_note_on_unscored (options : UseMIDIOptions) (now : jsnum)
    (dateNow command note velocity : Z) (s : midi_state)
    (Hcmd : 144 <= command <= 159) (Hvel : 0 < velocity)
    (Hopt : expectedNotes options = None \/ currentTime options = None) :
  let s' := handleMIDIMessage options now dateNow command note velocity s in
  activeNotes s' = activeNotes s ++ [{| note := note; velocity := velocity; timestamp := now |}] /\
  accuracy s' = accuracy s.
Proof.
  simpl. unfold handleMIDIMessage. rewrite note_on_true by lia.
  destruct Hopt as [H|H]; rewrite H; [|destruct (expectedNotes options)]; split; reflexivity.
Qed.

Lemma handleMIDIMessage_note_on_unscored_witness :
  accuracy (handleMIDIMessage {| expectedNotes := None; currentTime := Some (num_of_Z 0) |}
              (num_of_Z 0) 0 144 60 90 midi_init) = [].
Proof.
  destruct (handleMIDIMessage_note_on_unscored
              {| expectedNotes := None; currentTime := Some (num_of_Z 0) |}
              (num_of_Z 0) 0 144 60 90 midi_init ltac:(lia) ltac:(lia) (or_introl eq_refl))
    as [_ H].
  exact H.
Defined.

(** Pressing a key that is not held and releasing it again gives back the
    held notes as they were before the press (the log keeps the press's
    record, if any). *)
Theorem handleMIDIMessage_press_release (options options' : UseMIDIOptions)
    (now now' : jsnum) (dateNow dateNow' on off note velocity velocity' : Z) (s : midi_state)
    (Hon : 144 <= on <= 159) (Hvel : 0 < velocity)
    (Hoff : 128 <= off <= 143 \/ (144 <= off <= 159 /\ velocity' = 0))
    (Hfree : Forall (fun n => note_of n <> note) (activeNotes s)) :
  let s1 := handleMIDIMessage options now dateNow on note velocity s in
  let s2 := handleMIDIMessage options' now' dateNow' off note velocity' s1 in
  activeNotes s2 = activeNotes s /\ accuracy s2 = accuracy s1.
Proof.
  simpl.
  assert (H1 : activeNotes (handleMIDIMessage options now dateNow on note velocity s)
               = activeNotes s ++ [{| note := note; velocity := velocity; timestamp := now |}]).
  { unfold handleMIDIMessage. rewrite note_on_true by lia.
    destruct (expectedNotes options), (currentTime options); try reflexivity.
    destruct (find _ _); reflexivity. }
  set (s1 := handleMIDIMessage options now dateNow on note velocity s) in *.
  unfold handleMIDIMessage.
  rewrite note_on_false by lia.
  assert (Hc : ((128 <=? off) && (off <=? 143))
               || ((144 <=? off) && (off <=? 159) && (velocity' =? 0)) = true).
  { destruct Hoff as [H|H].
    - rewrite (proj2 (Z.leb_le 128 off)), (proj2 (Z.leb_le off 143)) by lia. reflexivity.
    - rewrite (proj2 (Z.leb_le 144 off)), (proj2 (Z.leb_le off 159)),
        (proj2 (Z.eqb_eq velocity' 0)) by lia.
      apply orb_true_r. }
  rewrite Hc. simpl. split; [|reflexivity].
  rewrite H1, filter_app. simpl. unfold note_of. simpl. rewrite Z.eqb_refl. simpl.
  rewrite app_nil_r. apply filter_true_on.
  eapply Forall_impl; [|exact Hfree]. intros x Hx. apply negb_true_iff, Z.eqb_neq. exact Hx.
Qed.

Lemma handleMIDIMessage_press_release_witness :
  activeNotes (handleMIDIMessage {| expectedNotes := None; currentTime := None |}
     (num_of_Z 9) 2 144 62 0
     (handleMIDIMessage {| expectedNotes := Some [en_c4]; currentTime := Some (num_of_Z 0) |}
        (num_of_Z 8) 1 144 62 70 midi_two_presses))
  = activeNotes midi_two_presses.
Proof.
  destruct (handleMIDIMessage_press_release
              {| expectedNotes := Some [en_c4]; currentTime := Some (num_of_Z 0) |}
              {| expectedNotes := None; currentTime := None |}
              (num_of_Z 8) (num_of_Z 9) 1 2 144 144 62 70 0 midi_two_presses
              ltac:(lia) ltac:(lia) ltac:(lia)
              ltac:(vm_compute; repeat constructor; discriminate)) as [H _].
  exact H.
Defined.

(** Every MIDI message extends the accuracy log by at most one record and
    never alters or removes the earlier ones; only a note-on of positive
    velocity handled with both an expected-note list and a transport time
    adds one. *)
Theorem handleMIDIMessage_log_append (options : UseMIDIOptions) (now : jsnum)
    (dateNow command note velocity : Z) (s : midi_state) :
  exists ext,
    accuracy (handleMIDIMessage options now dateNow command note velocity s)
      = accuracy s ++ ext /\
    (List.length ext <= 1)%nat /\
    (ext <> [] -> 144 <= command <= 159 /\ 0 < velocity /\
                  expectedNotes options <> None /\ currentTime options <> None).
Proof.
  unfold handleMIDIMessage.
  destruct ((144 <=? command) && (command <=? 159) && (0 <? velocity)) eqn:Hc.
  - apply andb_prop in Hc as [Hc H3]. apply andb_prop in Hc as [H1 H2].
    rewrite Z.leb_le in H1, H2. rewrite Z.ltb_lt in H3.
    destruct (expectedNotes options) eqn:Ee, (currentTime options) eqn:Ec;
      try (exists []; rewrite app_nil_r; split; [reflexivity|];
           split; [simpl; lia | intros C; exfalso; apply C; reflexivity]).
    destruct (find _ _); simpl; eexists; (split; [reflexivity|]);
      (split; [simpl; lia|]); intros _;
      (split; [lia|]); (split; [lia|]); split; discriminate.
  - destruct (_ || _); exists []; rewrite app_nil_r; split; [reflexivity| |reflexivity|];
      (split; [simpl; lia | intros C; exfalso; apply C; reflexivity]).
Qed.

(** ** Aggregates and the statistics panel *)

(** [accuracyPercentage] is always a whole number from 0 to 100: 100 when
    every record of a non-empty log is correct, 0 when none is. *)
Theorem accuracyPercentage_range (log : list MIDIAccuracy) :
  exists k, accuracyPercentage log = num_of_Z k /\ 0 <= k <= 100 /\
    (log <> [] -> count_correct log = List.length log -> k = 100) /\
    (count_correct log = O -> k = 0).
Proof.
  unfold accuracyPercentage.
  destruct (0 <? List.length log)%nat eqn:Hl.
  - apply Nat.ltb_lt in Hl. pose proof (count_correct_le log) as Hc.
    set (c := Z.of_nat (count_correct log)). set (n := Z.of_nat (List.length log)).
    assert (Hn : 0 < n) by (unfold n; lia).
    assert (Hcn : 0 <= c <= n) by (unfold c, n; lia).
    rewrite (js_div_num c n Hn).
    set (q := (inject_Z c / inject_Z n)%Q).
    assert (Hq0 : (0 <= q)%Q).
    { apply Qle_shift_div_l; [unfold Qlt; simpl; lia|].
      rewrite Qmult_0_l. unfold Qle; simpl; lia. }
    assert (Hq1 : (q <= 1)%Q).
    { apply Qle_shift_div_r; [unfold Qlt; simpl; lia|].
      rewrite Qmult_1_l. rewrite <- Zle_Qle. lia. }
    destruct (fl_between q 0 1 ltac:(vm_compute; reflexivity) ltac:(vm_compute; reflexivity)
                (conj Hq0 Hq1)) as (f & Ef & Hf0 & Hf1).
    rewrite Ef. change (js_mul (Fin f) (num_of_Z 100)) with (fl (f * 100)%Q).
    destruct (fl_between (f * 100)%Q 0 100 ltac:(vm_compute; reflexivity)
                ltac:(vm_compute; reflexivity) ltac:(lra)) as (y & Ey & Hy0 & Hy1).
    rewrite Ey. unfold js_round, num_of_Z.
    exists (Qfloor (y + (1 # 2))%Q). split; [reflexivity|]. split; [split|split].
    + change 0 with (Qfloor (1 # 2)%Q). apply Qfloor_resp_le. lra.
    + transitivity (Qfloor (inject_Z 100 + (1 # 2))%Q); [|apply Z.leb_le; reflexivity].
      apply Qfloor_resp_le. unfold inject_Z. lra.
    + intros _ Heq. assert (E : (q == 1)%Q).
      { unfold q, c. rewrite Heq. fold n. field. intros E. unfold Qeq in E. simpl in E. lia. }
      assert (E1 : fl q = Fin 1) by (rewrite (fl_compat q 1 E); vm_compute; reflexivity).
      rewrite Ef in E1. injection E1 as ->.
      assert (E2 : fl (1 * 100)%Q = Fin 100) by (vm_compute; reflexivity).
      rewrite Ey in E2. injection E2 as ->. reflexivity.
    + intros H0. assert (E : (q == 0)%Q).
      { unfold q, c. rewrite H0. simpl. unfold Qdiv. apply Qmult_0_l. }
      assert (E1 : fl q = Fin 0) by (rewrite (fl_compat q 0 E); vm_compute; reflexivity).
      rewrite Ef in E1. injection E1 as ->.
      assert (E2 : fl (0 * 100)%Q = Fin 0) by (vm_compute; reflexivity).
      rewrite Ey in E2. injection E2 as ->. reflexivity.
  - exists 0. split; [reflexivity|]. split; [lia|]. split; [|reflexivity].
    intros Hne _. apply Nat.ltb_ge in Hl. destruct log; [contradiction | simpl in Hl; lia].
Qed.

Lemma js_nonneg_add (a b : jsnum) : js_nonneg a -> js_nonneg b -> js_nonneg (js_add a b).
Proof.
  destruct a as [x| |[|]], b as [y| |[|]]; intros Ha Hb;
    try (simpl in *; discriminate); try (simpl; auto; fail).
  simpl in Ha, Hb. change (js_add (Fin x) (Fin y)) with (fl (x + y)%Q).
  destruct (fl_nonneg_cases (x + y)%Q ltac:(lra)) as [->|(r & -> & Hr)]; simpl; auto.
Qed.

Lemma js_nonneg_abs (a : jsnum) : js_nonneg (js_abs a).
Proof. destruct a; simpl; auto. apply Qabs_nonneg. Qed.

Lemma js_nonneg_fold_offsets (log : list MIDIAccuracy) (z : jsnum) :
  js_nonneg z ->
  js_nonneg (fold_left (fun sum a => js_add sum (js_abs (timingOffset a))) log z).
Proof.
  revert z. induction log as [|a l IH]; intros z Hz; simpl; [exact Hz|].
  apply IH. apply js_nonneg_add; [exact Hz | apply js_nonneg_abs].
Qed.

Lemma js_nonneg_div_pos (a : jsnum) (n : Z) :
  0 < n -> js_nonneg a -> js_nonneg (js_div a (num_of_Z n)).
Proof.
  intros Hn. unfold num_of_Z. destruct a as [x| |[|]]; intros Ha;
    try (simpl in Ha; discriminate); try (simpl; auto; fail).
  - cbv [js_div]. rewrite (Qeq_bool_inject_pos n Hn). simpl in Ha.
    assert (H : (0 <= x / inject_Z n)%Q).
    { apply Qle_shift_div_l; [unfold Qlt; simpl; lia|]. rewrite Qmult_0_l. exact Ha. }
    destruct (fl_nonneg_cases _ H) as [->|(r & -> & Hr)]; simpl; auto.
  - simpl. unfold Qlt_b. destruct (Qle_bool 0 (inject_Z n)) eqn:E; [reflexivity|].
    exfalso. assert (H : (0 <= inject_Z n)%Q) by (unfold Qle; simpl; lia).
    apply Qle_bool_iff in H. congruence.
Qed.

Lemma js_nonneg_round (a : jsnum) : js_nonneg a -> js_nonneg (js_round a).
Proof.
  destruct a as [x| |b]; intros Ha; [|exact Ha|exact Ha].
  unfold js_round, num_of_Z, js_nonneg. change 0%Q with (inject_Z 0). rewrite <- Zle_Qle.
  change 0 with (Qfloor (1 # 2)%Q). apply Qfloor_resp_le. simpl in Ha. lra.
Qed.

Lemma js_nonneg_not_lt (a : jsnum) : js_nonneg a -> js_lt a (num_of_Z 0) = false.
Proof.
  destruct a as [x| |[|]]; simpl; intros Ha; try discriminate; auto.
  unfold Qlt_b. apply negb_false_iff. apply Qle_bool_iff. exact Ha.
Qed.

(** [averageTimingOffset] averages absolute offsets, so it is never
    negative (it may be NaN); a statistics panel given it as [timingOffset]
    never describes the timing as Early and never shows the tip for
    playing too early. *)
Theorem averageTimingOffset_never_early (log : list MIDIAccuracy) (isConnected : bool)
    (acc notesPlayed : jsnum) :
  js_lt (averageTimingOffset log) (num_of_Z 0) = false /\
  (forall ms, getTimingDescription (averageTimingOffset log) <> Early ms) /\
  ~ In tip_early (stats_tips isConnected acc (averageTimingOffset log) notesPlayed).
Proof.
  assert (Hlt : js_lt (averageTimingOffset log) (num_of_Z 0) = false).
  { apply js_nonneg_not_lt. unfold averageTimingOffset.
    destruct (0 <? List.length log)%nat eqn:Hl; [|unfold js_nonneg, num_of_Z, Qle; simpl; lia].
    apply Nat.ltb_lt in Hl. apply js_nonneg_round, js_nonneg_div_pos; [lia|].
    apply js_nonneg_fold_offsets. unfold js_nonneg, num_of_Z, Qle; simpl; lia. }
  split; [exact Hlt|]. split.
  - intros ms. unfold getTimingDescription. rewrite Hlt.
    destruct (js_eq _ _); discriminate.
  - unfold stats_tips. rewrite Hlt, andb_false_r.
    destruct (_ && _); [|intros []].
    destruct (js_lt acc _), (_ && js_lt (num_of_Z 0) _), (_ && js_le _ _); simpl;
      intuition discriminate.
Qed.




(** The panel's colours are monotone: a higher accuracy never gets a
    colour further from green, a larger absolute timing offset never gets
    a colour closer to green; NaN gets red for both. *)
Theorem stats_colors_monotone (a b : jsnum) :
  (js_le a b = true ->
     (color_rank (getAccuracyColor a) <= color_rank (getAccuracyColor b))%nat) /\
  (js_le (js_abs a) (js_abs b) = true ->
     (color_rank (getTimingColor b) <= color_rank (getTimingColor a))%nat) /\
  getAccuracyColor NaN = red /\ getTimingColor NaN = red.
Proof.
  split; [|split; [|split; reflexivity]].
  - intros Hab. unfold getAccuracyColor, js_ge.
    destruct (js_le (num_of_Z 90) a) eqn:A90.
    + rewrite (js_le_trans _ _ _ A90 Hab). simpl. lia.
    + destruct (js_le (num_of_Z 70) a) eqn:A70.
      * rewrite (js_le_trans _ _ _ A70 Hab). destruct (js_le (num_of_Z 90) b); simpl; lia.
      * simpl. lia.
  - intros Hab. unfold getTimingColor.
    destruct (js_le (js_abs b) (num_of_Z 50)) eqn:B50.
    + rewrite (js_le_trans _ _ _ Hab B50). simpl. lia.
    + destruct (js_le (js_abs b) (num_of_Z 100)) eqn:B100.
      * rewrite (js_le_trans _ _ _ Hab B100). destruct (js_le (js_abs a) (num_of_Z 50)); simpl; lia.
      * simpl. lia.
Qed.

Lemma stats_colors_monotone_witness :
  (color_rank (getAccuracyColor (num_of_Z 75)) <= color_rank (getAccuracyColor (num_of_Z 92)))%nat /\
  (color_rank (getTimingColor (num_of_Z (-120))) <= color_rank (getTimingColor (num_of_Z 40)))%nat.
Proof.
  split.
  - apply (proj1 (stats_colors_monotone (num_of_Z 75) (num_of_Z 92))). vm_compute. reflexivity.
  - apply (proj1 (proj2 (stats_colors_monotone (num_of_Z 40) (num_of_Z (-120))))).
    vm_compute. reflexivity.
Defined.

(** ** Time display *)

(** A positive double below [2 ^ 53] lies on the grid of spacing [2 ^ E]
    for some [E <= 0], and that spacing exceeds [q * 2 ^ -53]. *)
Lemma double_grid (q : Q) :
  (0 < q)%Q -> fl q = Fin q -> (q < inject_Z (2 ^ 53))%Q ->
  exists E R, (E <= 0)%Z /\ (q == inject_Z R * Qpow2 E)%Q /\ (q * Qpow2 (-53) < Qpow2 E)%Q.
Proof.
  intros Hq Hd Hb. rewrite (fl_pos_eq q Hq) in Hd.
  set (q' := Qred q) in Hd.
  assert (Hq' : q' == q) by apply Qred_correct.
  destruct (Qle_bool (Qpow2 1024) (round64_pos q')); [discriminate|].
  assert (Hd2 : Qred (round64_pos q') = q) by congruence. clear Hd. rename Hd2 into Hd.
  assert (Hq'0 : (0 < q')%Q) by (rewrite Hq'; exact Hq).
  destruct (binade_spec q' Hq'0) as [B1 B2].
  assert (HB : (binade q' < 53)%Z).
  { apply binade_lt; [exact Hq'0|]. rewrite Hq', (Qpow2_Z 53) by lia. exact Hb. }
  exists (quantum q'), (round_even (q' / Qpow2 (quantum q'))). split; [unfold quantum; lia|].
  split.
  - assert (X : q == round64_pos q') by (rewrite <- Hd; apply Qred_correct).
    exact X.
  - apply Qlt_le_trans with (Qpow2 (binade q' + 1) * Qpow2 (-53))%Q.
    + apply Qmult_lt_compat_r; [apply Qpow2_pos|]. rewrite <- Hq'. exact B2.
    + rewrite <- Qpow2_plus. apply Qpow2_le. unfold quantum. lia.
Qed.

(** For a non-negative double [q] below [2 ^ 53], the rounded quotient
    [q / 60] has the same floor as the exact one. *)
Lemma div60_floor (q : Q) :
  (0 <= q)%Q -> fl q = Fin q -> (q < inject_Z (2 ^ 53))%Q ->
  exists r, fl (q * (1 # 60)) = Fin r /\ Qfloor r = Qfloor (q * (1 # 60)).
Proof.
  intros Hq Hd Hb.
  set (m := Qfloor (q * (1 # 60))).
  destruct (Qfloor_bounds (q * (1 # 60))) as [Hm1 Hm2]. fold m in Hm1, Hm2.
  change (inject_Z (2 ^ 53)) with 9007199254740992%Q in Hb.
  destruct (Qlt_le_dec q 30) as [Hs|Hl].
  - destruct (fl_between (q * (1 # 60)) 0 (1 # 2)) as (r & Er & Hr);
      [reflexivity | vm_compute; reflexivity | lra |].
    exists r. split; [exact Er|].
    assert (E0 : m = 0%Z) by (apply Qfloor_unique; change (inject_Z 0) with 0%Q; lra).
    rewrite E0. apply Qfloor_unique; change (inject_Z 0) with 0%Q; lra.
  - destruct (fl_rel_err (q * (1 # 60))) as (r & Er & Herr).
    + rewrite Qabs_pos by lra. apply Qle_trans with (Qpow2 (-1)); [apply Qpow2_le; lia|].
      change (Qpow2 (-1)) with (1 # 2). lra.
    + rewrite Qabs_pos by lra. apply Qlt_le_trans with 9007199254740992%Q; [lra|].
      rewrite <- (Qpow2_Z 53) by lia. apply Qpow2_le; lia.
    + exists r. split; [exact Er|].
      rewrite (Qabs_pos (q * (1 # 60))) in Herr by lra.
      assert (Hm0 : (0 <= m)%Z).
      { change 0%Z with (Qfloor 0). apply Qfloor_resp_le. lra. }
      assert (HmB : (m < 2 ^ 53)%Z).
      { rewrite Zlt_Qlt. change (inject_Z (2 ^ 53)) with 9007199254740992%Q. lra. }
      assert (Hlo : (inject_Z m <= r)%Q).
      { pose proof (fl_mono (inject_Z m) (q * (1 # 60)) Hm1) as H.
        rewrite fl_int in H by lia. rewrite Er in H. apply js_le_fin_iff in H. exact H. }
      destruct (double_grid q) as (E & R & HE & HR & Hsp);
        [lra | exact Hd | change (inject_Z (2 ^ 53)) with 9007199254740992%Q; exact Hb |].
      set (P := Qpow2 (- E)).
      assert (HPz : P == inject_Z (2 ^ (- E))) by (apply Qpow2_Z; lia).
      assert (HPE : Qpow2 E * P == 1).
      { unfold P. rewrite <- Qpow2_plus. replace (E + - E)%Z with 0%Z by lia. reflexivity. }
      assert (HP0 : (0 < P)%Q) by apply Qpow2_pos.
      assert (HqP : q * P == inject_Z R).
      { rewrite HR. rewrite <- Qmult_assoc, HPE. ring. }
      set (K := (60 * (m + 1))%Z).
      assert (HK : (q < inject_Z K)%Q).
      { unfold K. rewrite inject_Z_mult, inject_Z_plus. change (inject_Z 60) with 60%Q.
        change (inject_Z 1) with 1%Q. lra. }
      assert (Hgap : (q + Qpow2 E <= inject_Z K)%Q).
      { assert (HRK : (R < K * 2 ^ (- E))%Z).
        { rewrite Zlt_Qlt, inject_Z_mult, <- HPz, <- HqP.
          apply Qmult_lt_compat_r; [exact HP0 | exact HK]. }
        assert (HRK' : (inject_Z R + 1 <= inject_Z K * P)%Q).
        { rewrite HPz, <- inject_Z_mult. change 1%Q with (inject_Z 1).
          rewrite <- inject_Z_plus, <- Zle_Qle. lia. }
        rewrite <- HqP in HRK'.
        apply Qmult_le_r with P; [exact HP0|].
        rewrite Qmult_plus_distr_l, (Qmult_comm (Qpow2 E) P), (Qmult_comm P (Qpow2 E)), HPE.
        exact HRK'. }
      apply Qfloor_unique; [exact Hlo|].
      assert (Hup : (r <= q * (1 # 60) + q * (1 # 60) * Qpow2 (-53))%Q).
      { apply Qabs_Qle_condition in Herr. lra. }
      assert (HK' : (inject_Z K == 60 * (inject_Z m + 1))%Q).
      { unfold K. rewrite inject_Z_mult, inject_Z_plus. reflexivity. }
      assert (H53 : (q * (1 # 60) * Qpow2 (-53) == (q * Qpow2 (-53)) * (1 # 60))%Q) by ring.
      lra.
Qed.

Lemma seconds_field_length (s : Z) : 0 <= s < 60 -> String.length (seconds_field s) = 2%nat.
Proof.
  intros Hs.
  assert (Hall : forallb (fun n => Nat.eqb (String.length (seconds_field (Z.of_nat n))) 2)
                         (seq 0 60) = true) by (vm_compute; reflexivity).
  rewrite forallb_forall in Hall.
  specialize (Hall (Z.to_nat s)). rewrite Z2Nat.id in Hall by lia.
  apply Nat.eqb_eq, Hall, in_seq. lia.
Qed.

(** For a non-negative number of seconds [q] below [2 ^ 53] (a double, as
    every number the player reports is), [formatTime] shows the whole
    minutes, a colon and the remaining whole seconds as exactly two digits:
    [60 * mins + secs] is the floor of the input and [0 <= secs < 60]. *)
Theorem formatTime_nonneg (q : Q) (Hq : (0 <= q)%Q) (Hd : fl q = Fin q)
    (Hb : (q < inject_Z (2 ^ 53))%Q) :
  exists mins secs,
    formatTime (Fin q) = (Z_to_string mins ++ ":" ++ seconds_field secs)%string /\
    String.length (seconds_field secs) = 2%nat /\
    0 <= mins /\ 0 <= secs < 60 /\ 60 * mins + secs = Qfloor q.
Proof.
  set (m := Qfloor (q * (1 # 60))).
  destruct (div60_floor q Hq Hd Hb) as (r0 & Er & Hfr). fold m in Hfr.
  assert (Hm1 := Qfloor_le (q * (1 # 60))). assert (Hm2 := Qlt_floor (q * (1 # 60))).
  fold m in Hm1, Hm2. rewrite inject_Z_plus in Hm2. unfold inject_Z at 2 in Hm2.
  set (r := (q - (60 # 1) * inject_Z m)%Q).
  assert (Hr0 : (0 <= r)%Q) by (unfold r; lra).
  assert (Hr1 : (r < 60 # 1)%Q) by (unfold r; lra).
  set (sec := Qfloor r).
  assert (Hs1 := Qfloor_le r). assert (Hs2 := Qlt_floor r). fold sec in Hs1, Hs2.
  assert (Hsec : 0 <= sec < 60).
  { split.
    - change 0 with (Qfloor 0). apply Qfloor_resp_le. exact Hr0.
    - rewrite Zlt_Qlt. eapply Qle_lt_trans; [exact Hs1|]. exact Hr1. }
  assert (Hm0 : 0 <= m).
  { change 0 with (Qfloor 0). apply Qfloor_resp_le. lra. }
  exists m, sec.
  assert (Hfl : 60 * m + sec = Qfloor q).
  { symmetry. apply Qfloor_unique.
    - rewrite inject_Z_plus, inject_Z_mult. unfold r in Hs1.
      change (inject_Z 60) with (60 # 1)%Q. lra.
    - rewrite !inject_Z_plus, inject_Z_mult. rewrite inject_Z_plus in Hs2.
      unfold r in Hs2. change (inject_Z 60) with (60 # 1)%Q.
      change (inject_Z 1) with (1 # 1)%Q in *. lra. }
  split; [|split; [apply seconds_field_length; exact Hsec|split; [exact Hm0|split; [exact Hsec|exact Hfl]]]].
  assert (Hnz : Qeq_bool (inject_Z 60) 0 = false) by reflexivity.
  assert (Ht : Qtrunc (q * (1 # 60)) = m).
  { unfold Qtrunc. replace (Qle_bool 0 (q * (1 # 60))) with true; [reflexivity|].
    symmetry. apply Qle_bool_iff. lra. }
  assert (Hmins : js_floor (js_div (Fin q) (num_of_Z 60)) = num_of_Z m).
  { cbv [js_div num_of_Z]. rewrite Hnz. change (q / inject_Z 60)%Q with (q * (1 # 60))%Q.
    rewrite Er. cbn [js_floor]. rewrite Hfr. reflexivity. }
  assert (Hsecs : js_floor (js_rem (Fin q) (num_of_Z 60)) = num_of_Z sec).
  { cbv [js_rem num_of_Z]. rewrite Hnz. change (q / inject_Z 60)%Q with (q * (1 # 60))%Q.
    rewrite Ht. reflexivity. }
  unfold formatTime. rewrite Hmins, Hsecs.
  unfold int_num_to_string, num_of_Z, seconds_field. rewrite !Qfloor_Z.
  replace (js_lt (Fin (inject_Z sec)) (Fin (inject_Z 10))) with (sec <? 10); [reflexivity|].
  simpl. destruct (sec <? 10) eqn:E; symmetry.
  - apply Qlt_b_iff. rewrite <- Zlt_Qlt. apply Z.ltb_lt. exact E.
  - apply Qlt_b_false_iff. rewrite <- Zle_Qle. apply Z.ltb_ge. exact E.
Qed.

Lemma formatTime_nonneg_witness :
  ((0 <= 151 # 2)%Q /\ fl (151 # 2) = Fin (151 # 2) /\ (151 # 2 < inject_Z (2 ^ 53))%Q) /\
  exists mins secs, formatTime (Fin (151 # 2)) = (Z_to_string mins ++ ":" ++ seconds_field secs)%string /\
    60 * mins + secs = 75.
Proof.
  assert (H : (0 <= 151 # 2)%Q) by (unfold Qle; simpl; lia).
  assert (Hd : fl (151 # 2) = Fin (151 # 2)) by (vm_compute; reflexivity).
  assert (Hb : (151 # 2 < inject_Z (2 ^ 53))%Q) by (apply Qlt_b_iff; vm_compute; reflexivity).
  split; [split; [exact H | split; [exact Hd | exact Hb]]|].
  destruct (formatTime_nonneg (151 # 2) H Hd Hb) as (m & s & E & _ & _ & _ & F).
  exists m, s. split; [exact E | rewrite F; reflexivity].
Defined.

(** Without the bound the property fails: the double 288230376151712576
    (a multiple of 64 just below 60 * 4803839602528543) is shown as
    "4803839602528543:56", since [seconds / 60] rounds up to the next
    integer while [seconds % 60] is exact, so [60 * mins + secs] exceeds
    the input by 60. *)
Lemma formatTime_nonneg_counterexample :
  let q := inject_Z 288230376151712576 in
  (0 <= q)%Q /\ fl q = Fin q /\
  formatTime (Fin q) = "4803839602528543:56"%string /\
  60 * 4803839602528543 + 56 <> Qfloor q.
Proof.
  cbv zeta. split; [|split; [|split]].
  - apply Qle_bool_iff. vm_compute. reflexivity.
  - vm_compute. reflexivity.
  - vm_compute. reflexivity.
  - rewrite Qfloor_Z. lia.
Qed.

(** ** YouTube player hook *)

Lemma yt_filter_single (id j : nat) :
  filter (fun k => negb (Nat.eqb k id)) [j] = (if Nat.eqb j id then [] else [j]).
Proof. simpl. destruct (Nat.eqb j id); reflexivity. Qed.

Lemma yt_interval_ok_step (s : yt_state) (data : Z) :
  yt_interval_ok s ->
  yt_interval_ok (yt_onStateChange data s) /\
  (live_intervals (yt_onStateChange data s) <> [] <-> data = 1).
Proof.
  intros [H|(id & H & Hr)]; unfold yt_onStateChange, yt_setInterval, yt_clearInterval, yt_set_ref;
    destruct (data =? 1) eqn:Ed.
  - apply Z.eqb_eq in Ed. destruct (timeUpdateInterval s) eqn:Hr; simpl; rewrite H; simpl;
      (split; [right; eexists; split; reflexivity | split; [auto | intros _; discriminate]]).
  - apply Z.eqb_neq in Ed. destruct (timeUpdateInterval s) eqn:Hr; simpl; rewrite H; simpl;
      (split; [left; reflexivity | split; [intros C; contradiction | intros E; contradiction]]).
  - apply Z.eqb_eq in Ed. rewrite Hr. simpl. rewrite H. simpl. rewrite Nat.eqb_refl. simpl.
    split; [right; eexists; split; reflexivity | split; [auto | intros _; discriminate]].
  - apply Z.eqb_neq in Ed. rewrite Hr. simpl. rewrite H. simpl. rewrite Nat.eqb_refl. simpl.
    split; [left; reflexivity | split; [intros C; contradiction | intros E; contradiction]].
Qed.

Lemma yt_interval_ok_reachable (s : yt_state) : yt_reachable s -> yt_interval_ok s.
Proof.
  induction 1 as [| s p _ IH | s data _ IH | s _ IH | s b id _ IH | s b t _ IH | s _ IH
                  | s v _ IH].
  - left. reflexivity.
  - exact IH.
  - apply yt_interval_ok_step. exact IH.
  - unfold yt_cleanup. destruct IH as [H|(id & H & Hr)].
    + destruct (timeUpdateInterval s); [left; simpl; rewrite H; reflexivity | left; exact H].
    + rewrite Hr. left. simpl. rewrite H. simpl. rewrite Nat.eqb_refl. reflexivity.
  - unfold yt_tick. destruct (existsb _ _); [|exact IH]. destruct (playerRef s); exact IH.
  - unfold yt_seekTo. destruct (playerRef s); exact IH.
  - unfold yt_toggleMute. destruct (playerRef s); exact IH.
  - unfold yt_setVolume. destruct (playerRef s); exact IH.
Qed.

(** Whatever sequence of player events, interval firings, cleanups and
    calls the hook goes through, at most one time-update interval is live,
    and then it is the one held in [timeUpdateInterval]; after a state
    change event an interval is live exactly when the new state is
    PLAYING (1). *)
Theorem yt_single_time_update_interval (s : yt_state) (Hs : yt_reachable s) :
  yt_interval_ok s /\
  forall data, yt_interval_ok (yt_onStateChange data s) /\
    (live_intervals (yt_onStateChange data s) <> [] <-> data = 1).
Proof.
  pose proof (yt_interval_ok_reachable s Hs) as H.
  split; [exact H|]. intros data. apply yt_interval_ok_step. exact H.
Qed.

Lemma yt_single_time_update_interval_witness :
  let s := yt_cleanup (yt_onStateChange 1 (yt_with_player yt_init
             (Some {| p_time := num_of_Z 0; p_muted := false; p_volume := num_of_Z 100 |}))) in
  yt_reachable s /\ live_intervals (yt_onStateChange 2 s) = [].
Proof.
  intros s.
  assert (H : yt_reachable s) by (repeat constructor).
  split; [exact H|].
  destruct (yt_single_time_update_interval s H) as [_ P].
  destruct (P 2) as [_ [Q _]].
  destruct (live_intervals (yt_onStateChange 2 s)); [reflexivity|].
  exfalso. assert (E : 2 = 1) by (apply Q; discriminate). discriminate.
Defined.

(** Without a player the controls do nothing (no state change, no
    [onTimeUpdate] call); with a player, [toggleMute] flips [isMuted] and
    sets the player's mute state to the new value, and two toggles give
    [isMuted] back. *)
Theorem yt_controls (s : yt_state) (b : bool) (t v : jsnum) :
  (playerRef s = None ->
     yt_toggleMute s = s /\ yt_setVolume v s = s /\ yt_seekTo b t s = (s, [])) /\
  (forall p, playerRef s = Some p ->
     isMuted (yt_toggleMute s) = negb (isMuted s) /\
     (exists p1, playerRef (yt_toggleMute s) = Some p1 /\
                 p_muted p1 = isMuted (yt_toggleMute s)) /\
     isMuted (yt_toggleMute (yt_toggleMute s)) = isMuted s).
Proof.
  split.
  - intros H. unfold yt_toggleMute, yt_setVolume, yt_seekTo. rewrite H. auto.
  - intros p H. unfold yt_toggleMute. rewrite H. simpl.
    split; [reflexivity|]. split; [eexists; split; reflexivity|].
    apply negb_involutive.
Qed.

Lemma yt_controls_witness :
  isMuted (yt_toggleMute (yt_toggleMute (yt_with_player yt_init
     (Some {| p_time := num_of_Z 0; p_muted := true; p_volume := num_of_Z 100 |})))) = false.
Proof.
  destruct (yt_controls (yt_with_player yt_init
     (Some {| p_time := num_of_Z 0; p_muted := true; p_volume := num_of_Z 100 |}))
     false (num_of_Z 0) (num_of_Z 0)) as [_ P].
  destruct (P _ eq_refl) as (_ & _ & H). exact H.
Defined.

(** From a position [t] within [0, duration] (both doubles, the duration
    below [2 ^ 30] s), the arrow keys seek to a position within
    [0, duration], behind [t] (left) or ahead of it (right) by at most
    5 s plus the rounding of [currentTime -/+ 5], which is below [2 ^ -23];
    the hook's [currentTime] becomes that position and [onTimeUpdate]
    receives it. *)
Theorem keyboard_seek_in_range (k : key) (t d : Q) (Ht : (0 <= t <= d)%Q)
    (Htd : fl t = Fin t) (Hd : (d < inject_Z (2 ^ 30))%Q)
    (s : yt_state) (p : yt_player) (Hp : playerRef s = Some p) (b : bool) (target : jsnum) :
  keyboard_seek k (Fin t) (Fin d) = Some target ->
  exists x, target = Fin x /\ (0 <= x <= d)%Q /\
    (k = ArrowLeft -> (x <= t /\ t - x <= 5 + (1 # 8388608))%Q) /\
    (k = ArrowRight -> (t <= x /\ x - t <= 5 + (1 # 8388608))%Q) /\
    yt_currentTime (fst (yt_seekTo b target s)) = target /\
    snd (yt_seekTo b target s) = (if b then [target] else []).
Proof.
  intros Hk.
  change (inject_Z (2 ^ 30)) with 1073741824%Q in Hd.
  assert (Hseek : forall target, yt_currentTime (fst (yt_seekTo b target s)) = target /\
                  snd (yt_seekTo b target s) = (if b then [target] else [])).
  { intros target'. unfold yt_seekTo; rewrite Hp; split; reflexivity. }
  destruct k; cbn [keyboard_seek] in Hk; try discriminate; injection Hk as <-.
  - change (js_sub (Fin t) (num_of_Z 5)) with (fl (t + - inject_Z 5)%Q).
    destruct (fl_abs_err (t + - inject_Z 5) 31) as (u & Eu & Herr); [lia| |].
    { apply Qabs_case; intros _; change (Qpow2 31) with 2147483648%Q;
        change (inject_Z 5) with 5%Q; lra. }
    assert (Hut : (u <= t)%Q).
    { pose proof (fl_mono (t + - inject_Z 5) t) as H.
      rewrite Eu, Htd in H. apply js_le_fin_iff, H. change (inject_Z 5) with 5%Q. lra. }
    apply Qabs_Qle_condition in Herr. change (Qpow2 (31 - 54)) with (1 # 8388608)%Q in Herr.
    change (inject_Z 5) with 5%Q in Herr.
    rewrite Eu. cbn [js_max js_lt num_of_Z]. change (inject_Z 0) with 0%Q.
    destruct (Qlt_b 0 u) eqn:E; q_facts.
    + exists u. split; [reflexivity|]. split; [lra|].
      split; [intros _; lra|]. split; [discriminate|]. exact (Hseek _).
    + exists 0%Q. split; [reflexivity|]. split; [lra|].
      split; [intros _; lra|]. split; [discriminate|]. exact (Hseek _).
  - change (js_add (Fin t) (num_of_Z 5)) with (fl (t + inject_Z 5)%Q).
    destruct (fl_abs_err (t + inject_Z 5) 31) as (u & Eu & Herr); [lia| |].
    { apply Qabs_case; intros _; change (Qpow2 31) with 2147483648%Q;
        change (inject_Z 5) with 5%Q; lra. }
    assert (Htu : (t <= u)%Q).
    { pose proof (fl_mono t (t + inject_Z 5)) as H.
      rewrite Eu, Htd in H. apply js_le_fin_iff, H. change (inject_Z 5) with 5%Q. lra. }
    apply Qabs_Qle_condition in Herr. change (Qpow2 (31 - 54)) with (1 # 8388608)%Q in Herr.
    change (inject_Z 5) with 5%Q in Herr.
    rewrite Eu. cbn [js_min js_lt].
    destruct (Qlt_b u d) eqn:E; q_facts.
    + exists u. split; [reflexivity|]. split; [lra|].
      split; [discriminate|]. split; [intros _; lra|]. exact (Hseek _).
    + exists d. split; [reflexivity|]. split; [lra|].
      split; [discriminate|]. split; [intros _; lra|]. exact (Hseek _).
Qed.

Lemma keyboard_seek_in_range_witness :
  ((0 <= 8 <= 200)%Q /\ fl 8 = Fin 8 /\ (200 < inject_Z (2 ^ 30))%Q) /\
  yt_currentTime (fst (yt_seekTo true (Fin 3)
    (yt_with_player yt_init (Some {| p_time := num_of_Z 8; p_muted := false;
                                     p_volume := num_of_Z 100 |})))) = Fin 3 /\
  keyboard_seek ArrowLeft (Fin 8) (Fin 200) = Some (Fin 3).
Proof.
  assert (E : keyboard_seek ArrowLeft (Fin 8) (Fin 200) = Some (Fin 3)) by (vm_compute; reflexivity).
  assert (H1 : (0 <= 8 <= 200)%Q) by (split; unfold Qle; simpl; lia).
  assert (H2 : fl 8 = Fin 8) by (vm_compute; reflexivity).
  assert (H3 : (200 < inject_Z (2 ^ 30))%Q) by (apply Qlt_b_iff; vm_compute; reflexivity).
  split; [split; [exact H1 | split; [exact H2 | exact H3]]|].
  split; [|exact E].
  destruct (keyboard_seek_in_range ArrowLeft 8 200 H1 H2 H3
              (yt_with_player yt_init (Some {| p_time := num_of_Z 8; p_muted := false;
                                               p_volume := num_of_Z 100 |}))
              {| p_time := num_of_Z 8; p_muted := false; p_volume := num_of_Z 100 |}
              eq_refl true (Fin 3) E) as (x & _ & _ & _ & _ & H & _).
  exact H.
Defined.

(** A seek forward by the right arrow can land more than 5 s ahead:
    from the double 1023.6820746024467, [currentTime + 5] rounds up to
    1028.6820746024468, [2 ^ -43] s (about 1.1e-13 s) beyond [t + 5]. *)
Lemma keyboard_seek_in_range_counterexample :
  let t := (9004402753369991 # 8796093022208)%Q in
  fl t = Fin t /\ (0 <= t <= 2000)%Q /\
  keyboard_seek ArrowRight (Fin t) (Fin 2000) = Some (Fin (1131047902310129 # 1099511627776)) /\
  (5 < (1131047902310129 # 1099511627776) - t)%Q.
Proof.
  cbv zeta. split; [vm_compute; reflexivity|]. split; [split; qnum|].
  split; [vm_compute; reflexivity | qnum].
Qed.

(* ------------------------------------------------------------------ *)
(** ** Hand filter on parsed scores *)

Lemma note_entry_hand tempo divisions mn idx ne c n :
  note_entry tempo divisions mn idx ne c = Some n ->
  hand n = if js_lt (pitch n) (num_of_Z 60) then left else right.
Proof.
  unfold note_entry.
  destruct (ne_rest ne); [discriminate|].
  destruct (ne_step ne), (ne_octave ne); try discriminate.
  destruct (_ || _); [discriminate|].
  destruct (ne_duration ne) as [d|]; [|discriminate].
  destruct (negb (str_truthy d)); [discriminate|].
  intros H; inversion H; subst; reflexivity.
Qed.

Lemma process_notes_hand tempo divisions mn idx noteEls c :
  Forall hand_by_pitch (fst (process_notes tempo divisions mn idx noteEls c)).
Proof.
  revert idx c. induction noteEls as [|ne r IH]; intros idx c; simpl; [constructor|].
  destruct (note_entry tempo divisions mn idx ne c) as [n|] eqn:E; [|apply IH].
  specialize (IH (S idx) (js_add c (duration n))).
  destruct (process_notes tempo divisions mn (S idx) r (js_add c (duration n))) as [ns t].
  simpl in *. constructor; [|exact IH].
  unfold hand_by_pitch. eapply note_entry_hand; exact E.
Qed.

Lemma process_measures_hand tempo measureEls c :
  Forall hand_by_pitch (fst (process_measures tempo measureEls c)).
Proof.
  revert c. induction measureEls as [|me r IH]; intros c; simpl; [constructor|].
  pose proof (process_notes_hand tempo (measure_divisions me) (measure_number me) 0
                (me_notes me) c) as H1.
  destruct (process_notes tempo (measure_divisions me) (measure_number me) 0
              (me_notes me) c) as [ns t].
  specialize (IH t).
  destruct (process_measures tempo r t) as [ns' ms']. simpl in *.
  apply Forall_app. auto.
Qed.

Lemma filter_length_negb {A} (f : A -> bool) (l : list A) :
  (List.length (filter f l) + List.length (filter (fun x => negb (f x)) l))%nat
  = List.length l.
Proof. induction l as [|a r IH]; simpl; [reflexivity|]. destruct (f a); simpl; lia. Qed.

(** getNotesByHand on a parsed score: ['both'] gives every note; every
    note is tagged ['left'] or ['right'], never ['both']; ['left'] gives
    exactly the notes whose pitch is below 60 and ['right'] all the others
    (including those with a NaN pitch), so the two lists split the notes
    in document order. Before a parse every hand gives []. *)
Theorem getNotesByHand_partition (doc : score_doc) :
  let md := Some (fetchAndParseMusicXML doc) in
  let ns := notes (fetchAndParseMusicXML doc) in
  getNotesByHand md both = ns /\
  (forall n, In n ns -> hand n <> both) /\
  getNotesByHand md left = filter (fun n => js_lt (pitch n) (num_of_Z 60)) ns /\
  getNotesByHand md right = filter (fun n => negb (js_lt (pitch n) (num_of_Z 60))) ns /\
  (List.length (getNotesByHand md left) + List.length (getNotesByHand md right))%nat
    = List.length ns /\
  (forall h, getNotesByHand None h = []).
Proof.
  assert (F : Forall hand_by_pitch (notes (fetchAndParseMusicXML doc))).
  { unfold fetchAndParseMusicXML.
    pose proof (process_measures_hand (tempo_of doc) (sd_measures doc) (num_of_Z 0)) as H.
    destruct (process_measures (tempo_of doc) (sd_measures doc) (num_of_Z 0)). exact H. }
  rewrite Forall_forall in F. unfold hand_by_pitch in F.
  assert (EL : getNotesByHand (Some (fetchAndParseMusicXML doc)) left
               = filter (fun n => js_lt (pitch n) (num_of_Z 60))
                   (notes (fetchAndParseMusicXML doc))).
  { simpl. apply filter_ext_in. intros n Hn. rewrite (F n Hn).
    destruct (js_lt (pitch n) (num_of_Z 60)); reflexivity. }
  assert (ER : getNotesByHand (Some (fetchAndParseMusicXML doc)) right
               = filter (fun n => negb (js_lt (pitch n) (num_of_Z 60)))
                   (notes (fetchAndParseMusicXML doc))).
  { simpl. apply filter_ext_in. intros n Hn. rewrite (F n Hn).
    destruct (js_lt (pitch n) (num_of_Z 60)); reflexivity. }
  cbv zeta. split; [reflexivity|]. split.
  { intros n Hn. rewrite (F n Hn). destruct (js_lt _ _); discriminate. }
  split; [exact EL|]. split; [exact ER|]. split.
  - rewrite EL, ER. apply filter_length_negb.
  - reflexivity.
Qed.

(* ------------------------------------------------------------------ *)
(** ** The notes of a parsed score on one clock *)

Lemma notes_chain_app (c : jsnum) (l1 l2 : list Note) :
  notes_chain c l1 ->
  notes_chain (fold_left (fun c n => js_add c (duration n)) l1 c) l2 ->
  notes_chain c (l1 ++ l2).
Proof.
  revert c. induction l1 as [|n r IH]; intros c H1 H2; simpl in *; [exact H2|].
  destruct H1 as (Hs & He & Hr). auto.
Qed.

Lemma segments_chain tempo c measureEls segs ms :
  segments tempo c measureEls segs ms ->
  notes_chain c (List.concat segs) /\
  (forall pre m, ms = pre ++ [m] ->
     mt_end m = fold_left (fun c n => js_add c (duration n)) (List.concat segs) c).
Proof.
  revert c segs ms. induction measureEls as [|me r IH]; intros c segs ms H;
    destruct segs as [|seg segs], ms as [|m0 ms]; simpl in H; try contradiction.
  - split; [exact I|]. intros pre m E. destruct pre; discriminate.
  - destruct H as (Hs & _ & Hp & H).
    destruct (process_notes_shape _ _ _ _ _ _ _ _ Hp) as (C & T & _ & _).
    destruct (IH _ _ _ H) as [IH1 IH2].
    simpl. split.
    + apply notes_chain_app; [exact C|]. rewrite <- T. exact IH1.
    + rewrite fold_left_app, <- T.
      intros [|p pre] m E; simpl in E; inversion E; subst.
      * destruct (segments_nil_r _ _ _ _ H) as [-> ->]. reflexivity.
      * apply (IH2 pre m eq_refl).
Qed.

(** The notes of a parsed score are laid end to end on one clock that
    starts at 0 and runs across measure boundaries: the first note starts
    at 0, each note ends at its start plus its duration and the next note
    starts where it ended (rests and skipped entries take no time); the
    last measure ends where the clock stands after the last note. *)
Theorem parse_notes_chain (doc : score_doc) :
  let md := fetchAndParseMusicXML doc in
  notes_chain (num_of_Z 0) (notes md) /\
  (forall pre m, measures md = pre ++ [m] ->
     mt_end m = fold_left (fun c n => js_add c (duration n)) (notes md) (num_of_Z 0)).
Proof.
  destruct (parse_segments doc) as (segs & Hn & Hs).
  destruct (segments_chain _ _ _ _ _ Hs) as [C E].
  cbv zeta. rewrite Hn. split; [exact C|]. exact E.
Qed.

(* ------------------------------------------------------------------ *)
(** ** Metronome: reachable states *)

Lemma metronome_ticks_idle (n : nat) (audio : bool) (s : metronome_state) :
  intervalRef s = None -> metronome_ticks n audio s = (s, []).
Proof.
  intros H. induction n as [|n IH]; simpl; [reflexivity|].
  unfold metronome_tick at 1. rewrite H, IH. reflexivity.
Qed.

(** [stop] from any reachable state: the metronome is stopped with no
    interval installed, keeps its tempo and beat, a second [stop] changes
    nothing and no later interval firing happens; a [setTempo] on the
    stopped metronome only changes the tempo and does not restart it. *)
Theorem metronome_stop_silences (s : metronome_state) (Hs : metronome_reachable s) :
  let s' := metronome_stop s in
  isPlaying s' = false /\ intervalRef s' = None /\
  bpm s' = bpm s /\ currentBeat s' = currentBeat s /\
  metronome_stop s' = s' /\
  (forall n audio, metronome_ticks n audio s' = (s', [])) /\
  (forall onTick t, metronome_setTempo onTick t s' = set_bpm s' t /\
                    isPlaying (metronome_setTempo onTick t s') = false /\
                    intervalRef (metronome_setTempo onTick t s') = None).
Proof.
  assert (Hs' : metronome_reachable (metronome_stop s)) by (constructor; exact Hs).
  assert (Hp : isPlaying (metronome_stop s) = false).
  { unfold metronome_stop. destruct (isPlaying s) eqn:E; simpl; auto. }
  assert (Hi := metronome_stopped_no_interval _ Hs' Hp).
  cbv zeta. split; [exact Hp|]. split; [exact Hi|].
  split; [unfold metronome_stop; destruct (isPlaying s); reflexivity|].
  split; [unfold metronome_stop; destruct (isPlaying s); reflexivity|].
  split; [unfold metronome_stop at 1; rewrite Hp; reflexivity|].
  split; [intros; apply metronome_ticks_idle; exact Hi|].
  intros onTick t. unfold metronome_setTempo. rewrite Hi. auto.
Qed.

Lemma metronome_stop_silences_witness :
  let s := metronome_start true true
             {| isPlaying := false; bpm := num_of_Z 74; currentBeat := 0;
                intervalRef := None |} in
  metronome_reachable s /\ isPlaying (metronome_stop s) = false.
Proof.
  cbv zeta.
  assert (H : metronome_reachable (metronome_start true true
             {| isPlaying := false; bpm := num_of_Z 74; currentBeat := 0;
                intervalRef := None |})) by (constructor; constructor).
  split; [exact H|].
  destruct (metronome_stop_silences _ H) as [P _]. exact P.
Defined.

(** A change of [options.enabled] while the metronome plays, to [true] or
    to [undefined], clears the interval and does not install another: the
    metronome stays playing with no interval, interval firings do nothing,
    [start] is refused (it is already playing) and [setTempo] does not
    restart it, since it requires an installed interval. Only [stop]
    brings it back to the stopped state. *)
Theorem metronome_enabled_stuck (audio onTick : bool) (e : option bool)
    (s : metronome_state) (Hp : isPlaying s = true) (He : e <> Some false) :
  let s' := metronome_enabled_effect audio onTick e s in
  isPlaying s' = true /\ intervalRef s' = None /\ bpm s' = bpm s /\
  (forall n audio', metronome_ticks n audio' s' = (s', [])) /\
  (forall audio' onTick', metronome_start audio' onTick' s' = s') /\
  (forall onTick' t, metronome_setTempo onTick' t s' = set_bpm s' t) /\
  isPlaying (metronome_stop s') = false.
Proof.
  assert (E : metronome_enabled_effect audio onTick e s = metronome_enabled_cleanup s).
  { unfold metronome_enabled_effect. destruct e as [[|]|]; simpl; rewrite ?Hp; try reflexivity.
    congruence. }
  cbv zeta. rewrite E. simpl.
  split; [exact Hp|]. split; [reflexivity|]. split; [reflexivity|].
  split; [intros; apply metronome_ticks_idle; reflexivity|].
  split; [intros; unfold metronome_start; simpl; rewrite Hp; reflexivity|].
  split; [intros; reflexivity|].
  unfold metronome_stop. simpl. rewrite Hp. reflexivity.
Qed.

Lemma metronome_enabled_stuck_witness :
  let s := metronome_start true true
             {| isPlaying := false; bpm := num_of_Z 74; currentBeat := 0;
                intervalRef := None |} in
  isPlaying s = true /\
  intervalRef (metronome_enabled_effect true true None s) = None.
Proof.
  cbv zeta. split; [reflexivity|].
  destruct (metronome_enabled_stuck true true None
              (metronome_start true true
                 {| isPlaying := false; bpm := num_of_Z 74; currentBeat := 0;
                    intervalRef := None |}) eq_refl ltac:(discriminate))
    as (_ & P & _). exact P.
Defined.

(* ------------------------------------------------------------------ *)
(** ** Note ids *)












